(** * The Store model of dang-thats-delicious

    A shallow embedding of [models/Store.js]: the mongoose schema of a
    store, its [pre("save")] hook that derives the slug, the two
    aggregation pipelines [getTagsList] and [getTopStores], and the
    [reviews] virtual that the [find]/[findOne] hooks populate.

    Strings are Rocq strings holding the UTF-8 encoding of the
    JavaScript string.  The ratings that [$avg] averages are IEEE 754
    binary64 numbers, with the arithmetic of the Standard Library's
    [SpecFloat]; of the coordinates only their being numbers matters,
    and they are rationals.  Object ids and dates are natural numbers.
    The database is passed explicitly: the [stores] and the [reviews]
    collection. *)

From Stdlib Require Import Ascii QArith DecimalString.
From Stdlib Require DecimalNat SpecFloat.
From stdpp Require Import base option list gmap strings sorting.

Local Open Scope nat_scope.

(** ** The JavaScript fragment the model file relies on *)

Module Js.

(** The UTF-8 encoding of a code point below U+10000. *)
Definition utf8 (cp : N) : string :=
  let byte (n : N) := ascii_of_N n in
  (if cp <? 128 then String (byte cp) ""
   else if cp <? 2048
   then String (byte (192 + cp / 64)) (String (byte (128 + cp mod 64)) "")
   else String (byte (224 + cp / 4096))
          (String (byte (128 + (cp / 64) mod 64))
             (String (byte (128 + cp mod 64)) "")))%N.

(** The code points that [String.prototype.trim] strips: the WhiteSpace
    of the language definition (tab, vertical tab, form feed, space,
    no-break space, the byte order mark and the space separators) and
    its LineTerminator (line feed, carriage return, line and paragraph
    separator). *)
Definition whiteSpaceCodePoints : list N :=
  [0x9; 0xB; 0xC; 0x20; 0xA0; 0xFEFF;
   0x1680; 0x2000; 0x2001; 0x2002; 0x2003; 0x2004; 0x2005; 0x2006; 0x2007;
   0x2008; 0x2009; 0x200A; 0x202F; 0x205F; 0x3000;
   0xA; 0xD; 0x2028; 0x2029]%N.

Definition whiteSpace : list string := utf8 <$> whiteSpaceCodePoints.

(** What is left of [s] after the prefix [w]. *)
Fixpoint dropPrefix (w s : string) : option string :=
  match w, s with
  | EmptyString, _ => Some s
  | String a w', String b s' => if Ascii.eqb a b then dropPrefix w' s' else None
  | String _ _, EmptyString => None
  end.

(** What is left of [s] after one of the strings of [table]. *)
Definition dropOneOf (table : list string) (s : string) : option string :=
  head (omap (λ w, dropPrefix w s) table).

(** Strings of [table] are dropped from the front of [s] while there is
    one; there are at most as many as [s] has bytes. *)
Fixpoint trimWith (table : list string) (fuel : nat) (s : string) : string :=
  match fuel with
  | O => s
  | S fuel' =>
      match dropOneOf table s with
      | Some rest => trimWith table fuel' rest
      | None => s
      end
  end.

Definition trimStart (s : string) : string :=
  trimWith whiteSpace (String.length s) s.

Definition trimEnd (s : string) : string :=
  String.rev (trimWith (String.rev <$> whiteSpace) (String.length s) (String.rev s)).

Definition trim (s : string) : string := trimEnd (trimStart s).

Fixpoint blankWith (fuel : nat) (s : string) : bool :=
  match s with
  | EmptyString => true
  | String _ _ =>
      match fuel with
      | O => false
      | S fuel' =>
          match dropOneOf whiteSpace s with
          | Some rest => blankWith fuel' rest
          | None => false
          end
      end
  end.

(** A string made of white space only (the empty string included). *)
Definition isBlank (s : string) : bool := blankWith (String.length s) s.

(** [`${n}`] for a non-negative integer [n]. *)
Definition toString (n : nat) : string :=
  NilZero.string_of_uint (Nat.to_uint n).

Definition inRange (lo hi c : ascii) : bool :=
  (N.leb (N_of_ascii lo) (N_of_ascii c)) && (N.leb (N_of_ascii c) (N_of_ascii hi)).

Definition toUpperCase (c : ascii) : ascii :=
  if inRange "a" "z" c then ascii_of_N (N_of_ascii c - 32) else c.

Definition toLowerCase (c : ascii) : ascii :=
  if inRange "A" "Z" c then ascii_of_N (N_of_ascii c + 32) else c.

(** ** Numbers

    A number is an IEEE 754 binary64 value; the operations round to
    nearest, ties to even. *)
Definition Double : Type := SpecFloat.spec_float.

(** The number of an integer literal. *)
Definition number (z : Z) : Double := SpecFloat.binary_normalize 53 1024 z 0 false.

Definition add (x y : Double) : Double := SpecFloat.SFadd 53 1024 x y.

Definition div (x y : Double) : Double := SpecFloat.SFdiv 53 1024 x y.

Definition isNaN (x : Double) : bool :=
  match x with SpecFloat.S754_nan => true | _ => false end.

(** ** Regular expressions

    The pattern language of the one [RegExp] the model builds, matched
    by backtracking with a continuation, position by position, as the
    language definition does.  All matching here is under the [i]
    flag: two characters agree when their upper-case forms do. *)
Inductive RegExp : Type :=
| Eps                          (* the empty pattern *)
| Chr (c : ascii)              (* a pattern character *)
| Range (lo hi : ascii)        (* [lo-hi] *)
| Cat (r1 r2 : RegExp)         (* r1 r2 *)
| Opt (r : RegExp)             (* r? *)
| Star (r : RegExp)            (* r* *)
| Group (r : RegExp)           (* (r) *)
| Bol                          (* ^ *)
| Eol.                         (* $ *)

Definition canonicalize (c : ascii) : ascii := toUpperCase c.

Definition charMatches (c a : ascii) : bool :=
  bool_decide (canonicalize c = canonicalize a).

(** [a] is matched by the class [lo-hi] when some member of the class
    has the canonical form of [a]; over ASCII that member is [a] or one
    of its two case forms. *)
Definition rangeMatches (lo hi a : ascii) : bool :=
  inRange lo hi a || inRange lo hi (toUpperCase a) || inRange lo hi (toLowerCase a).

(** The iterations of [r*]: at most one for each character left, since
    an iteration that consumes nothing is not taken; [step] runs [r]
    once. *)
Fixpoint iterate (step : nat → string → (nat → string → bool) → bool)
    (k : nat → string → bool) (fuel pos : nat) (s : string) {struct fuel} : bool :=
  match fuel with
  | O => k pos s
  | S fuel' =>
      step pos s
        (λ pos' s', if bool_decide (pos' = pos) then false
                    else iterate step k fuel' pos' s')
      || k pos s
  end.

Fixpoint exec (r : RegExp) (pos : nat) (s : string)
    (k : nat → string → bool) {struct r} : bool :=
  match r with
  | Eps => k pos s
  | Chr c =>
      match s with
      | String a s' => if charMatches c a then k (S pos) s' else false
      | EmptyString => false
      end
  | Range lo hi =>
      match s with
      | String a s' => if rangeMatches lo hi a then k (S pos) s' else false
      | EmptyString => false
      end
  | Cat r1 r2 => exec r1 pos s (λ pos' s', exec r2 pos' s' k)
  | Opt r' => exec r' pos s k || k pos s
  | Star r' => iterate (exec r') k (String.length s) pos s
  | Group r' => exec r' pos s k
  | Bol => match pos with O => k pos s | S _ => false end
  | Eol => match s with EmptyString => k pos s | String _ _ => false end
  end.

(** [r.test(s)]: a match may start at any position of [s]. *)
Fixpoint search (r : RegExp) (pos : nat) (s : string) : bool :=
  exec r pos s (λ _ _, true)
  || match s with
     | String _ s' => search r (S pos) s'
     | EmptyString => false
     end.

Definition test (r : RegExp) (s : string) : bool := search r 0 s.

(** The pattern text of a string of characters that stand for
    themselves. *)
Fixpoint literal (s : string) : RegExp :=
  match s with
  | EmptyString => Eps
  | String c s' => Cat (Chr c) (literal s')
  end.

(** [r+] *)
Definition Plus (r : RegExp) : RegExp := Cat r (Star r).

(** What is left of [s] after a prefix that agrees with [base] up to
    the case of its letters. *)
Fixpoint stripPrefix (base s : string) : option string :=
  match base, s with
  | EmptyString, _ => Some s
  | String b base', String a s' =>
      if charMatches b a then stripPrefix base' s' else None
  | String _ _, EmptyString => None
  end.

Definition isDigit (c : ascii) : bool := inRange "0" "9" c.

Fixpoint allDigits (s : string) : bool :=
  match s with
  | EmptyString => true
  | String c s' => isDigit c && allDigits s'
  end.

Definition isEmpty (s : string) : bool :=
  match s with EmptyString => true | String _ _ => false end.

End Js.

(** ** Documents and collections *)

Definition ObjectId := nat.
Definition Date := nat.

(** Modelled from the spec: the Review record, whose schema is declared
    in another model file; only the reference to its store and its
    rating, a number, are read here. *)
Record Review := {
  review_id : ObjectId;
  store : ObjectId;
  rating : Js.Double
}.

(** [location]: a GeoJSON point.  A component of [coordinates] is a
    number, or [None] for a null entry. *)
Record Location := {
  type : string;
  coordinates : list (option Q);
  address : option string
}.

(** The paths of [storeSchema]; a path not set yet is [None]. *)
Record Store := {
  _id : ObjectId;
  name : option string;
  slug : option string;
  description : option string;
  tags : list string;
  created : Date;
  location : Location;
  photo : option string;
  author : option ObjectId
}.

(** The paths declared by the schema, which are the ones a save writes.
    The virtual [reviews] is declared apart and is not one of them. *)
Definition schemaPaths : list string :=
  ["name"; "slug"; "description"; "tags"; "created"; "location.type";
   "location.coordinates"; "location.address"; "photo"; "author"].

Definition virtualPaths : list string := ["reviews"].

Record DB := {
  coll_stores : list Store;
  coll_reviews : list Review
}.

(** A mongoose document: the field values, whether it was inserted yet,
    the paths changed since it was loaded, and the paths whose value
    could not be cast to the declared type. *)
Record Document := {
  doc : Store;
  isNew : bool;
  modifiedPaths : list string;
  castErrors : list string
}.

Definition isModified (path : string) (d : Document) : bool :=
  bool_decide (path ∈ modifiedPaths d).

Inductive Error : Type :=
| ValidationError (errors : list (string * string))
| TypeError.

(** A value handed to a path of type Number: a number, null, or a value
    the Number caster refuses. *)
Inductive NumberInput : Type :=
| InNum (q : Q)
| InNull
| InNotANumber.

(** The object given to [new Store(...)]. *)
Record StoreInput := {
  in_name : option string;
  in_description : option string;
  in_tags : list string;
  in_coordinates : option (list NumberInput);
  in_address : option string;
  in_photo : option string;
  in_author : option ObjectId
}.

Definition castNumber (v : NumberInput) : option (option Q) :=
  match v with
  | InNum q => Some (Some q)
  | InNull => Some None
  | InNotANumber => None
  end.

Definition castCoordinates (vs : list NumberInput) : option (list (option Q)) :=
  mapM castNumber vs.

Definition setPaths (i : StoreInput) : list string :=
  (if in_name i is Some _ then ["name"] else [])
  ++ (if in_description i is Some _ then ["description"] else [])
  ++ ["tags"]
  ++ (if in_coordinates i is Some _ then ["location.coordinates"] else [])
  ++ (if in_address i is Some _ then ["location.address"] else [])
  ++ (if in_photo i is Some _ then ["photo"] else [])
  ++ (if in_author i is Some _ then ["author"] else []).

(** [new Store(input)]: setters ([trim]) and defaults ([created],
    [location.type], the empty array of an array path) are applied while
    the document is built. *)
Definition newStore (id : ObjectId) (now : Date) (i : StoreInput) : Document :=
  let coords := from_option castCoordinates (Some []) (in_coordinates i) in
  {| doc := {| _id := id;
               name := Js.trim <$> in_name i;
               slug := None;
               description := Js.trim <$> in_description i;
               tags := in_tags i;
               created := now;
               location := {| type := "Point";
                              coordinates := default [] coords;
                              address := in_address i |};
               photo := in_photo i;
               author := in_author i |};
     isNew := true;
     modifiedPaths := setPaths i;
     castErrors := if coords is Some _ then [] else ["location.coordinates"] |}.

(** *** Validation *)

(** [required] on a String path: the value is a non-empty string. *)
Definition requiredString (v : option string) : bool :=
  match v with
  | Some s => negb (bool_decide (s = ""))
  | None => false
  end.

Definition requiredValue {A} (v : option A) : bool :=
  match v with Some _ => true | None => false end.

Definition check (ok : bool) (path message : string) : list (string * string) :=
  if ok then [] else [(path, message)].

(** The validators of the schema, in the order of its paths.  Each
    element of [location.coordinates] is declared a required Number;
    nothing is declared about how many there are. *)
Definition validate (d : Document) : list (string * string) :=
  let s := doc d in
  check (requiredString (name s)) "name" "Please enter a store name!"
  ++ ((λ p, (p, "Cast to Number failed")) <$> castErrors d)
  ++ check (forallb requiredValue (coordinates (location s)))
       "location.coordinates" "You must supply coordinates!"
  ++ check (requiredString (address (location s)))
       "location.address" "You must supply an address!"
  ++ check (requiredValue (author s)) "author" "You must supply an author.".

(** *** Reading: the [reviews] virtual and the [find]/[findOne] hooks *)

(** A document as a query returns it: the stored record and, next to
    it, the populated virtual. *)
Record Populated := {
  record : Store;
  reviews : list Review
}.

(** [populate("reviews")]: the reviews whose [store] is the [_id] of the
    store ([ref], [localField], [foreignField] of the virtual). *)
Definition populate (db : DB) (s : Store) : Populated :=
  {| record := s;
     reviews := filter (λ r, store r = _id s) (coll_reviews db) |}.

(** [Store.find(conditions)], with [autopopulate] as its [pre] hook. *)
Definition find (conditions : Store → bool) (db : DB) : list Populated :=
  populate db <$> filter (λ s, conditions s = true) (coll_stores db).

(** [Store.findOne(conditions)], with [autopopulate] as its [pre] hook. *)
Definition findOne (conditions : Store → bool) (db : DB) : option Populated :=
  head (find conditions db).

(** *** Writing: validation, the [pre("save")] hook, the write itself *)

Definition setSlug (v : string) (d : Document) : Document :=
  let s := doc d in
  {| doc := {| _id := _id s; name := name s; slug := Some v;
               description := description s; tags := tags s;
               created := created s; location := location s;
               photo := photo s; author := author s |};
     isNew := isNew d;
     modifiedPaths :=
       if isModified "slug" d then modifiedPaths d else modifiedPaths d ++ ["slug"];
     castErrors := castErrors d |}.

(** [new RegExp(`^(${base})((-[0-9]*$)?)$`, "i")], the interpolated slug
    being pattern text of characters that stand for themselves (letters,
    digits, [-] and [_]). *)
Definition slugRegEx (base : string) : Js.RegExp :=
  Js.Cat Js.Bol
    (Js.Cat (Js.Group (Js.literal base))
       (Js.Cat
          (Js.Group
             (Js.Opt
                (Js.Group
                   (Js.Cat (Js.Chr "-")
                      (Js.Cat (Js.Star (Js.Range "0" "9")) Js.Eol)))))
          Js.Eol)).

(** The query condition [{ slug: re }]: the slug is a string that the
    expression matches. *)
Definition slugCondition (re : Js.RegExp) (s : Store) : bool :=
  match slug s with
  | Some v => Js.test re v
  | None => false
  end.

(** The two writes of a save.  A new document is inserted; for one
    that was read from the collection, the update sets its modified
    paths in the record with its [_id], which makes that record the
    record of the document, no other write coming between the read and
    the save.  The checks the database makes on a write, those of the
    [2dsphere] index on [location] among them, are outside the model: a
    write that goes through here may still be refused by the database,
    with an error that is not a validation error. *)
Definition insertOne (s : Store) (db : DB) : DB :=
  {| coll_stores := coll_stores db ++ [s];
     coll_reviews := coll_reviews db |}.

Definition updateOne (s : Store) (db : DB) : DB :=
  {| coll_stores :=
       (λ t, if bool_decide (_id t = _id s) then s else t) <$> coll_stores db;
     coll_reviews := coll_reviews db |}.

Definition saved (d : Document) : Document :=
  {| doc := doc d; isNew := false; modifiedPaths := []; castErrors := [] |}.

Section Save.

(** The function exported by the [slugs] package, bound to [slug] in
    the model file. *)
Variable slugs : string → string.

(** [storeSchema.pre("save", ...)]. *)
Definition preSave (db : DB) (d : Document) : Error + Document :=
  if negb (isModified "name" d) then inr d
  else
    match name (doc d) with
    | None => inl TypeError
    | Some n =>
        let d1 := setSlug (slugs n) d in
        let storesWithSlug := find (slugCondition (slugRegEx (slugs n))) db in
        if negb (length storesWithSlug =? 0)
        then inr (setSlug
                    (slugs n +:+ "-" +:+ Js.toString (length storesWithSlug + 1)) d1)
        else inr d1
    end.

(** [document.save()]: the schema validation comes first, then the
    hook above, then the write; the database is left as it was when a
    step fails. *)
Definition save (db : DB) (d : Document) : DB * (Error + Document) :=
  match validate d with
  | [] =>
      match preSave db d with
      | inr d' =>
          ((if isNew d' then insertOne (doc d') db else updateOne (doc d') db),
           inr (saved d'))
      | inl e => (db, inl e)
      end
  | errors => (db, inl (ValidationError errors))
  end.

(** Modelled from the spec: [createStore], whose controller is not in
    the model file: the new document is built from the input and
    saved. *)
Definition createStore (db : DB) (id : ObjectId) (now : Date) (i : StoreInput)
    : DB * (Error + Document) :=
  save db (newStore id now i).

End Save.

Module Slugs.

Definition isAlnum (c : ascii) : bool :=
  Js.inRange "a" "z" c || Js.inRange "0" "9" c.

Fixpoint go (pending : bool) (s : string) : string :=
  match s with
  | EmptyString => EmptyString
  | String c s' =>
      let c' := Js.toLowerCase c in
      if isAlnum c'
      then (if pending then String "-" (String c' (go false s'))
            else String c' (go false s'))
      else go true s'
  end.

Definition dropHyphen (s : string) : string :=
  match s with
  | String "-" s' => s'
  | _ => s
  end.

(** Modelled from the spec: the normalisation done by the [slugs]
    package, which is not part of the model file: lower case, every run
    of characters other than letters and digits becomes one hyphen, no
    hyphen at either end. *)
Definition slugs (s : string) : string := dropHyphen (go false s).

End Slugs.

(** ** The aggregation pipelines *)

Module TagCount.
(** An output document of the [$group] stage of [getTagsList]. *)
Record t := { _id : string; count : nat }.

(** [{ count: -1, _id: 1 }]: the larger count first, and among equal
    counts the smaller tag first. *)
Definition before (a b : t) : Prop :=
  count b < count a ∨ (count a = count b ∧ String.le (_id a) (_id b)).

Global Instance before_dec : RelDecision before.
Proof. intros a b. unfold before. apply _. Defined.
End TagCount.

(** [{ $unwind: "$tags" }]: one document for each tag of each store. *)
Definition unwindTags (l : list Store) : list (Store * string) :=
  s ← l; (λ t, (s, t)) <$> tags s.

(** [{ $group: { _id: "$tags", count: { $sum: 1 } } }]. *)
Definition groupTags (l : list (Store * string)) : gmap string nat :=
  foldr (λ st acc, <[st.2 := S (default 0 (acc !! st.2))]> acc) ∅ l.

Definition getTagsList (db : DB) : list TagCount.t :=
  merge_sort TagCount.before
    ((λ tn, {| TagCount._id := tn.1; TagCount.count := tn.2 |})
       <$> map_to_list (groupTags (unwindTags (coll_stores db)))).

Module TopStore.
(** An output document of the [$project] stage of [getTopStores]. *)
Record t := {
  _id : ObjectId;
  photo : option string;
  name : option string;
  reviews : list Review;
  slug : option string;
  averageRating : option Js.Double
}.

(** The order of numbers in a sort: NaN before every other number,
    then the numeric order, the two zeros being equal. *)
Definition numberLe (x y : Js.Double) : bool :=
  match SpecFloat.SFcompare x y with
  | Some Gt => false
  | Some _ => true
  | None => Js.isNaN x
  end.

(** The order of values of a sort key: null before every number. *)
Definition keyLe (x y : option Js.Double) : bool :=
  match x, y with
  | None, _ => true
  | Some _, None => false
  | Some a, Some b => numberLe a b
  end.

(** [{ averageRating: -1 }]. *)
Definition before (a b : t) : Prop :=
  keyLe (averageRating b) (averageRating a) = true.

Global Instance before_dec : RelDecision before.
Proof. intros a b. unfold before. apply _. Defined.
End TopStore.

(** The ratings added up from zero, in the order of the array, every
    addition rounded to binary64.  On whole ratings from 0 to 5, up to
    a thousand of them, no addition rounds and the sum is the sum of
    the integers, in whatever order it is taken: see
    [sum_whole_ratings]. *)
Definition sum (l : list Js.Double) : Js.Double :=
  foldl Js.add (Js.number 0) l.

(** The arithmetic mean in binary64: the sum divided by the count. *)
Definition mean (l : list Js.Double) : Js.Double :=
  Js.div (sum l) (Js.number (Z.of_nat (length l))).

(** [$avg]: null when there is no number to average. *)
Definition avg (l : list Js.Double) : option Js.Double :=
  match l with
  | [] => None
  | _ => Some (mean l)
  end.

Global Instance double_eq_dec : EqDecision Js.Double.
Proof. solve_decision. Defined.

(** Adding a whole rating from 0 to 5 to a whole number below [bound]
    gives their sum, with no rounding. *)
Definition wholeSumsExact (bound : Z) : bool :=
  forallb (λ a, forallb (λ r,
      bool_decide (Js.add (Js.number a) (Js.number r) = Js.number (a + r)))
    (seqZ 0 6)) (seqZ 0 bound).

(** [$lookup] from [reviews], [localField: "_id"],
    [foreignField: "store"], [as: "reviews"]. *)
Definition lookupReviews (db : DB) (l : list Store) : list (Store * list Review) :=
  (λ s, (s, filter (λ r, store r = _id s) (coll_reviews db))) <$> l.

(** [{ $match: { "reviews.1": { $exists: true } } }]. *)
Definition matchSecondReview (l : list (Store * list Review))
    : list (Store * list Review) :=
  filter (λ sr, is_Some (sr.2 !! 1)) l.

Definition project (sr : Store * list Review) : TopStore.t :=
  {| TopStore._id := _id sr.1;
     TopStore.photo := photo sr.1;
     TopStore.name := name sr.1;
     TopStore.reviews := sr.2;
     TopStore.slug := slug sr.1;
     TopStore.averageRating := avg (rating <$> sr.2) |}.

(** The stages of [getTopStores] before [$limit]. *)
Definition rankedStores (db : DB) : list TopStore.t :=
  merge_sort TopStore.before
    (project <$> matchSecondReview (lookupReviews db (coll_stores db))).

Definition getTopStores (db : DB) : list TopStore.t :=
  take 10 (rankedStores db).

(** A call [Store.getTopStores(a1, ..., an)]: the function declares no
    parameter and does not read [arguments], so what the caller passes
    is dropped. *)
Definition getTopStores_call (arguments : list nat) (db : DB) : list TopStore.t :=
  getTopStores db.

(** ** Descriptions of the slugs a pattern accepts *)

(** The pattern as the specification words it: [^(base)(-[0-9]+)?$]
    under the [i] flag. *)
Definition specSlugRegEx (base : string) : Js.RegExp :=
  Js.Cat Js.Bol
    (Js.Cat (Js.Group (Js.literal base))
       (Js.Cat
          (Js.Opt (Js.Group (Js.Cat (Js.Chr "-") (Js.Plus (Js.Range "0" "9")))))
          Js.Eol)).

(** [v] is [base] up to case, followed by nothing, or by a hyphen and
    digits [ds] that [ok] accepts. *)
Definition suffixedBy (ok : string → bool) (base v : string) : bool :=
  match Js.stripPrefix base v with
  | Some EmptyString => true
  | Some (String c ds) => bool_decide (c = "-"%char) && (Js.allDigits ds && ok ds)
  | None => false
  end.

(** [base], [base-], [base-7], [base-42], ... *)
Definition collides : string → string → bool := suffixedBy (λ _, true).

(** [base], [base-7], [base-42], ... *)
Definition numbered : string → string → bool :=
  suffixedBy (λ ds, negb (Js.isEmpty ds)).

Definition slugCollides (base : string) (s : Store) : bool :=
  match slug s with
  | Some v => collides base v
  | None => false
  end.

(** The number of stored slugs that collide with [base]. *)
Definition collisions (base : string) (db : DB) : nat :=
  length (filter (λ s, slugCollides base s = true) (coll_stores db)).

(** A stored record loaded into a document, nothing changed yet. *)
Definition hydrate (s : Store) : Document :=
  {| doc := s; isNew := false; modifiedPaths := []; castErrors := [] |}.

(** Every component of the coordinates is a number. *)
Definition numericCoordinates (s : Store) : Prop :=
  Forall is_Some (coordinates (location s)).

(** The coordinates are a pair of numbers. *)
Definition coordinatePair (s : Store) : Prop :=
  length (coordinates (location s)) = 2 ∧ numericCoordinates s.

(** The slug for [base] by the count of collisions: the base alone when
    there is none, else the base, a hyphen and the count plus one. *)
Definition assigned (base : string) (db : DB) : string :=
  match collisions base db with
  | O => base
  | S m => base +:+ "-" +:+ Js.toString (S m + 1)
  end.

(** ** Sample data *)

Definition emptyDb : DB := {| coll_stores := []; coll_reviews := [] |}.

Definition coffeeShop : StoreInput :=
  {| in_name := Some "Coffee Shop";
     in_description := Some "Espresso and pastries";
     in_tags := ["Wifi"; "Open Late"];
     in_coordinates := Some [InNum (-798 # 10); InNum (432 # 10)];
     in_address := Some "Hamilton, ON";
     in_photo := None;
     in_author := Some 7 |}.

Definition teaHouse : Store :=
  {| _id := 40; name := Some "Tea House"; slug := Some "tea-house";
     description := None; tags := ["Vegetarian"]; created := 3;
     location := {| type := "Point";
                    coordinates := [Some (-796 # 10); Some (436 # 10)];
                    address := Some "Toronto, ON" |};
     photo := None; author := Some 7 |}.

Definition oneStoreDb : DB := {| coll_stores := [teaHouse]; coll_reviews := [] |}.

(** A record written past the hook, with a slug that ends in a hyphen. *)
Definition wesDash : Store :=
  {| _id := 50; name := Some "Wes -"; slug := Some "wes-";
     description := None; tags := []; created := 4;
     location := {| type := "Point";
                    coordinates := [Some (-798 # 10); Some (432 # 10)];
                    address := Some "Hamilton, ON" |};
     photo := None; author := Some 7 |}.

Definition wesDashDb : DB := {| coll_stores := [wesDash]; coll_reviews := [] |}.

Definition withName (n : option string) (i : StoreInput) : StoreInput :=
  {| in_name := n; in_description := in_description i; in_tags := in_tags i;
     in_coordinates := in_coordinates i; in_address := in_address i;
     in_photo := in_photo i; in_author := in_author i |}.

Definition withCoordinates (c : option (list NumberInput)) (i : StoreInput)
    : StoreInput :=
  {| in_name := in_name i; in_description := in_description i;
     in_tags := in_tags i; in_coordinates := c; in_address := in_address i;
     in_photo := in_photo i; in_author := in_author i |}.

(** Longitude, latitude and an altitude. *)
Definition threeCoordinates : StoreInput :=
  withCoordinates (Some [InNum (-798 # 10); InNum (432 # 10); InNum 100]) coffeeShop.

(** ** Descriptions of the reports *)

(** How many times the tag [t] occurs in the tag sequences of all
    stores, each occurrence counted. *)
Definition occurrences (t : string) (db : DB) : nat :=
  length (filter (λ u, u = t) (coll_stores db ≫= tags)).

(** [a] has an average rating at least that of [b]. *)
Definition descending (a b : TopStore.t) : Prop :=
  match TopStore.averageRating a, TopStore.averageRating b with
  | Some x, Some y => TopStore.numberLe y x = true
  | _, _ => False
  end.

Definition tagged (id : ObjectId) (ts : list string) : Store :=
  {| _id := id; name := Some "Store"; slug := Some "store";
     description := None; tags := ts; created := 1;
     location := {| type := "Point";
                    coordinates := [Some (-798 # 10); Some (432 # 10)];
                    address := Some "Hamilton, ON" |};
     photo := None; author := Some 7 |}.

Definition tagsDb : DB :=
  {| coll_stores := [tagged 1 ["a"; "b"]; tagged 2 ["a"]; tagged 3 ["b"; "b"]];
     coll_reviews := [] |}.

Definition review (id st : ObjectId) (r : Z) : Review :=
  {| review_id := id; store := st; rating := Js.number r |}.

Arguments review id st r%_Z.

(** Store 1 has two reviews of 3, store 2 has a 4 and a 5, store 3 has
    one review. *)
Definition ratedDb : DB :=
  {| coll_stores := [tagged 1 []; tagged 2 []; tagged 3 []];
     coll_reviews := [review 1 1 3; review 2 2 4; review 3 3 5;
                      review 4 1 3; review 5 2 5] |}.

(** Three stores with two reviews each. *)
Definition crowdedDb : DB :=
  {| coll_stores := [tagged 1 []; tagged 2 []; tagged 3 []];
     coll_reviews := [review 1 1 3; review 2 2 4; review 3 3 5;
                      review 4 1 3; review 5 2 5; review 6 3 1] |}.

(** ** Creating several stores, one after the other *)

(** The slug numbered [m] for [base]: the base for the first store, then
    the base, a hyphen and the number. *)
Definition numberedSlug (base : string) (m : nat) : string :=
  match m with
  | 0 | 1 => base
  | _ => base +:+ "-" +:+ Js.toString m
  end.

(** The slugs that are set among the stored records. *)
Definition storedSlugs (db : DB) : list string :=
  omap slug (coll_stores db).

(** Two documents agree on every path but [slug] and on what mongoose
    tracks besides the modified paths. *)
Definition sameButSlug (d d' : Document) : Prop :=
  _id (doc d') = _id (doc d)
  ∧ name (doc d') = name (doc d)
  ∧ description (doc d') = description (doc d)
  ∧ tags (doc d') = tags (doc d)
  ∧ created (doc d') = created (doc d)
  ∧ location (doc d') = location (doc d)
  ∧ photo (doc d') = photo (doc d)
  ∧ author (doc d') = author (doc d)
  ∧ isNew d' = isNew d
  ∧ castErrors d' = castErrors d.

Section CreateEach.

Variable slugs : string → string.

(** Stores created one after the other, each save being over before
    the next begins; a failed save is passed over. *)
Fixpoint createEach (db : DB) (requests : list (ObjectId * Date * StoreInput))
    : DB * list (Error + Document) :=
  match requests with
  | [] => (db, [])
  | (id, now, i) :: rest =>
      let r := createStore slugs db id now i in
      let rs := createEach r.1 rest in
      (rs.1, r.2 :: rs.2)
  end.

End CreateEach.

(** The slug of a result, when the save went through. *)
Definition resultSlug (r : Error + Document) : option string :=
  match r with
  | inr d => slug (doc d)
  | inl _ => None
  end.

(** A request that passes validation and whose trimmed name has the
    slug [base]. *)
Definition requestFor (slugs : string → string) (base : string)
    (rq : ObjectId * Date * StoreInput) : Prop :=
  validate (newStore rq.1.1 rq.1.2 rq.2) = []
  ∧ ∃ n, in_name rq.2 = Some n ∧ slugs (Js.trim n) = base.

(** [doc.name = v] on a document: the setter trims the value; the path
    is marked modified when the document is new or the value changes. *)
Definition setName (v : string) (d : Document) : Document :=
  let s := doc d in
  {| doc := {| _id := _id s; name := Some (Js.trim v); slug := slug s;
               description := description s; tags := tags s;
               created := created s; location := location s;
               photo := photo s; author := author s |};
     isNew := isNew d;
     modifiedPaths :=
       if isNew d || negb (bool_decide (name s = Some (Js.trim v)))
       then (if isModified "name" d then modifiedPaths d
             else modifiedPaths d ++ ["name"])
       else modifiedPaths d;
     castErrors := castErrors d |}.

(** What the validators ask of the input of a create: a name that is
    not empty once trimmed, an address that is not empty, an author, and
    coordinates that are all numbers when they are given. *)
Definition acceptable (i : StoreInput) : Prop :=
  (∃ n, in_name i = Some n ∧ Js.trim n ≠ "")
  ∧ (∃ a, in_address i = Some a ∧ a ≠ "")
  ∧ is_Some (in_author i)
  ∧ (∀ vs, in_coordinates i = Some vs → Forall (λ v, ∃ q, v = InNum q) vs).

Definition coffeeShopRequests : list (ObjectId * Date * StoreInput) :=
  [(41, 10, coffeeShop); (42, 11, withName (Some "coffee shop!") coffeeShop);
   (43, 12, withName (Some "  Coffee   Shop ") coffeeShop)].

(** A catalog with a gap in the numbers: [coffee-shop] and
    [coffee-shop-3]. *)
Definition slugged (id : ObjectId) (v : string) : Store :=
  {| _id := id; name := Some "Coffee Shop"; slug := Some v;
     description := None; tags := []; created := 1;
     location := {| type := "Point";
                    coordinates := [Some (-798 # 10); Some (432 # 10)];
                    address := Some "Hamilton, ON" |};
     photo := None; author := Some 7 |}.

Definition gapDb : DB :=
  {| coll_stores := [slugged 1 "coffee-shop"; slugged 3 "coffee-shop-3"];
     coll_reviews := [] |}.

Definition aloneDb : DB :=
  {| coll_stores := [slugged 1 "coffee-shop"]; coll_reviews := [] |}.

(** ** More descriptions of the reports *)

(** A store has a second review joined to it. *)
Definition qualifies (db : DB) (s : Store) : Prop :=
  2 ≤ length (filter (λ r, store r = _id s) (coll_reviews db)).

Global Instance qualifies_dec db s : Decision (qualifies db s).
Proof. unfold qualifies. apply _. Defined.

(** Eleven stores with two reviews each: a 4 and a 5 for the first ten,
    two 1s for the eleventh. *)
Definition elevenDb : DB :=
  {| coll_stores := (λ i, tagged i []) <$> seq 1 11;
     coll_reviews :=
       i ← seq 1 11;
       [review (2 * i) i (if i =? 11 then 1 else 4);
        review (2 * i + 1) i (if i =? 11 then 1 else 5)] |}.

(** * The authentication controller

    A shallow embedding of [controllers/authController.js].  A handler
    is a function of what it reads from the request and of the state it
    works on: the [users] collection, the mails handed to the mail
    handler, and the user of the session.  What [Date.now()] and
    [crypto.randomBytes] return is an argument of the handler.  Times
    are milliseconds. *)

Definition Timestamp := N.

Module User.
(** Modelled from the spec: the User record, whose schema is declared in
    another model file; only what the controller reads and writes is
    kept, the credential standing for what [setPassword] stores. *)
Record t := {
  _id : ObjectId;
  email : string;
  credential : string;
  resetPasswordToken : option string;
  resetPasswordExpires : option Timestamp
}.
End User.

Global Instance user_eq_dec : EqDecision User.t.
Proof. solve_decision. Defined.

(** The argument of [mail.send]. *)
Record Mail := {
  user : User.t;
  subject : string;
  resetURL : string;
  filename : string
}.

Record World := {
  users : list User.t;
  outbox : list Mail;
  sessionUser : option ObjectId
}.

(** How a handler ends: [res.redirect], [res.render] or [next()]. *)
Inductive Outcome : Type :=
| Redirect (url : string)
| Render (view title : string)
| Next.

(** What a handler answers: the messages given to [req.flash], in
    order, and how it ends. *)
Record Response := {
  flashes : list (string * string);
  outcome : Outcome
}.

(** [User.findOne(conditions)]: the first user that meets them. *)
Definition findOneUser (conditions : User.t → bool) (w : World) : option User.t :=
  head (filter (λ u, conditions u = true) (users w)).

(** [{ email: email }]. *)
Definition byEmail (email : string) (u : User.t) : bool :=
  bool_decide (User.email u = email).

(** [{ resetPasswordToken: token, resetPasswordExpires: { $gt: now } }]. *)
Definition byToken (token : string) (now : Timestamp) (u : User.t) : bool :=
  bool_decide (User.resetPasswordToken u = Some token)
  && match User.resetPasswordExpires u with
     | Some t => (now <? t)%N
     | None => false
     end.

(** [user.save()]: the record with the [_id] of the user is replaced. *)
Definition saveUser (u : User.t) (w : World) : World :=
  {| users := (λ v, if bool_decide (User._id v = User._id u) then u else v) <$> users w;
     outbox := outbox w;
     sessionUser := sessionUser w |}.

Definition send (m : Mail) (w : World) : World :=
  {| users := users w; outbox := outbox w ++ [m]; sessionUser := sessionUser w |}.

(** [req.login(user)]. *)
Definition login (u : User.t) (w : World) : World :=
  {| users := users w; outbox := outbox w; sessionUser := Some (User._id u) |}.

Definition withReset (token : option string) (expires : option Timestamp)
    (u : User.t) : User.t :=
  {| User._id := User._id u; User.email := User.email u;
     User.credential := User.credential u;
     User.resetPasswordToken := token;
     User.resetPasswordExpires := expires |}.

Definition withCredential (c : string) (u : User.t) : User.t :=
  {| User._id := User._id u; User.email := User.email u;
     User.credential := c;
     User.resetPasswordToken := User.resetPasswordToken u;
     User.resetPasswordExpires := User.resetPasswordExpires u |}.

Definition invalidReset : Response :=
  {| flashes := [("error", "Password reset is invalid or has expired.")];
     outcome := Redirect "/login" |}.

(** [exports.forgot]; [token] is the forty hexadecimal digits drawn for
    this request. *)
Definition forgot (token : string) (now : Timestamp) (host email : string)
    (w : World) : World * Response :=
  match findOneUser (byEmail email) w with
  | None =>
      (w, {| flashes := [("success",
                          "A password reset email has been sent to this email.")];
             outcome := Redirect "/login" |})
  | Some u =>
      let u' := withReset (Some token) (Some (now + 3600000)%N) u in
      let w1 := saveUser u' w in
      let url := "http://" +:+ host +:+ "/account/reset/" +:+ token in
      let w2 := send {| user := u'; subject := "Password Reset";
                        resetURL := url; filename := "password-reset" |} w1 in
      (w2, {| flashes := [("success", "You have been emailed a password reset link.")];
              outcome := Redirect "/login" |})
  end.

(** [exports.reset]. *)
Definition reset (token : string) (now : Timestamp) (w : World) : Response :=
  match findOneUser (byToken token now) w with
  | None => invalidReset
  | Some _ => {| flashes := []; outcome := Render "reset" "Reset your Password" |}
  end.

Section Update.

(** What [setPassword] stores for a password. *)
Variable hash : string → string.

(** [exports.update]. *)
Definition update (token : string) (now : Timestamp) (password : string)
    (w : World) : World * Response :=
  match findOneUser (byToken token now) w with
  | None => (w, invalidReset)
  | Some u =>
      let u1 := withCredential (hash password) u in
      let updatedUser := withReset None None u1 in
      let w1 := saveUser updatedUser w in
      let w2 := login updatedUser w1 in
      (w2, {| flashes := [("success", "👯‍♂️Nice! Your password has been reset!!!!")];
              outcome := Redirect "/" |})
  end.

End Update.

(** No user holds the token. *)
Definition unusedToken (token : string) (w : World) : Prop :=
  ∀ u, u ∈ users w → User.resetPasswordToken u ≠ Some token.

Definition ada : User.t :=
  {| User._id := 7; User.email := "ada@example.com"; User.credential := "c0";
     User.resetPasswordToken := None; User.resetPasswordExpires := None |}.

Definition bob : User.t :=
  {| User._id := 8; User.email := "bob@example.com"; User.credential := "c1";
     User.resetPasswordToken := Some "beef"; User.resetPasswordExpires := Some 500%N |}.

Definition twoUsers : World :=
  {| users := [ada; bob]; outbox := []; sessionUser := None |}.

(** * Properties *)

(** ** Strings and patterns *)

Section JsFacts.
Import Js.

Lemma trimWith_blank fuel s :
  blankWith fuel s = true → trimWith whiteSpace fuel s = "".
Proof.
  revert s. induction fuel as [|fuel IH]; intros [|c s]; try done.
  change (blankWith (S fuel) (String c s))
    with (match dropOneOf whiteSpace (String c s) with
          | Some rest => blankWith fuel rest
          | None => false
          end).
  change (trimWith whiteSpace (S fuel) (String c s))
    with (match dropOneOf whiteSpace (String c s) with
          | Some rest => trimWith whiteSpace fuel rest
          | None => String c s
          end).
  destruct (dropOneOf whiteSpace (String c s)) as [rest|]; [apply IH | done].
Qed.

Lemma trimStart_blank s : isBlank s = true → trimStart s = "".
Proof. apply trimWith_blank. Qed.

Lemma trim_blank s : isBlank s = true → trim s = "".
Proof. intros H. unfold trim. by rewrite (trimStart_blank s H). Qed.

Lemma app_cons a (w r : string) : String a w +:+ r = String a (w +:+ r).
Proof. reflexivity. Qed.

Lemma app_empty_r (s : string) : s +:+ "" = s.
Proof. induction s as [|a s IH]; [done|]. by rewrite app_cons, IH. Qed.

Lemma string_app_assoc (a b c : string) : (a +:+ b) +:+ c = a +:+ (b +:+ c).
Proof. induction a as [|x a IH]; [done|]. by rewrite !app_cons, IH. Qed.

Lemma string_length_app (a b : string) :
  String.length (a +:+ b) = String.length a + String.length b.
Proof. induction a as [|x a IH]; [done|]. rewrite app_cons. simpl. by rewrite IH. Qed.

Lemma rev_app_app (a b : string) : String.rev_app a b = String.rev a +:+ b.
Proof.
  revert b. induction a as [|x a IH]; intros b; [done|].
  unfold String.rev. simpl. rewrite (IH (String x "")), IH.
  by rewrite string_app_assoc.
Qed.

Lemma string_rev_app_distr (a b : string) :
  String.rev (a +:+ b) = String.rev b +:+ String.rev a.
Proof.
  induction a as [|x a IH]; [by rewrite app_empty_r|].
  rewrite app_cons. unfold String.rev at 1 3. simpl.
  rewrite !rev_app_app, IH. by rewrite string_app_assoc.
Qed.

Lemma string_rev_involutive (s : string) : String.rev (String.rev s) = s.
Proof.
  induction s as [|x s IH]; [done|].
  unfold String.rev at 2. simpl. rewrite rev_app_app, string_rev_app_distr, IH. done.
Qed.

Lemma dropPrefix_app w r : dropPrefix w (w +:+ r) = Some r.
Proof.
  induction w as [|a w IH]; [by destruct r|].
  rewrite app_cons. simpl. by rewrite Ascii.eqb_refl.
Qed.

Lemma dropPrefix_inv w s r : dropPrefix w s = Some r → s = w +:+ r.
Proof.
  revert s. induction w as [|a w IH]; intros s.
  - simpl. by intros [= <-].
  - destruct s as [|b s]; [done|]. simpl.
    destruct (Ascii.eqb_spec a b) as [->|]; [|done].
    intros ->%IH. by rewrite app_cons.
Qed.

Lemma dropOneOf_Some table s r :
  dropOneOf table s = Some r → ∃ w, w ∈ table ∧ s = w +:+ r.
Proof.
  unfold dropOneOf. intros (w & Hw & Hd)%head_Some_elem_of%list_elem_of_omap.
  exists w. split; [done|]. by apply dropPrefix_inv.
Qed.

Lemma dropOneOf_None table s w :
  dropOneOf table s = None → w ∈ table → dropPrefix w s = None.
Proof.
  unfold dropOneOf. rewrite head_None. intros Hnil Hw.
  destruct (dropPrefix w s) as [r|] eqn:Hd; [|done].
  assert (Hr : r ∈ omap (λ w, dropPrefix w s) table).
  { apply list_elem_of_omap. eauto. }
  rewrite Hnil in Hr. by apply not_elem_of_nil in Hr.
Qed.

Lemma dropOneOf_shorter table s r :
  (∀ w, w ∈ table → w ≠ "") →
  dropOneOf table s = Some r → String.length r < String.length s.
Proof.
  intros Hne (w & Hw & ->)%dropOneOf_Some. rewrite string_length_app.
  specialize (Hne w Hw). destruct w; [done|]. simpl. lia.
Qed.

Lemma trimWith_unfold table fuel s :
  trimWith table (S fuel) s
  = match dropOneOf table s with
    | Some rest => trimWith table fuel rest
    | None => s
    end.
Proof. reflexivity. Qed.

(** What is left by the trimming starts with no string of the table. *)
Lemma trimWith_done table fuel s :
  (∀ w, w ∈ table → w ≠ "") →
  String.length s ≤ fuel →
  dropOneOf table (trimWith table fuel s) = None.
Proof.
  intros Hne. revert s. induction fuel as [|fuel IH]; intros s Hlen.
  - destruct s; [|simpl in Hlen; lia]. simpl.
    destruct (dropOneOf table "") as [r|] eqn:Hd; [|done].
    apply (dropOneOf_shorter _ _ _ Hne) in Hd. simpl in Hd. lia.
  - rewrite trimWith_unfold.
    destruct (dropOneOf table s) as [r|] eqn:Hd; [|done].
    apply IH. apply (dropOneOf_shorter _ _ _ Hne) in Hd. lia.
Qed.

(** A string trimmed to nothing is made of strings of the table. *)
Lemma trimWith_empty table fuel s :
  trimWith table fuel s = "" →
  ∃ ws, Forall (λ w, w ∈ table) ws ∧ s = foldr String.app "" ws.
Proof.
  revert s. induction fuel as [|fuel IH]; intros s.
  - simpl. intros ->. by exists [].
  - rewrite trimWith_unfold.
    destruct (dropOneOf table s) as [r|] eqn:Hd.
    + intros (ws & Hws & ->)%IH.
      apply dropOneOf_Some in Hd as (w & Hw & ->).
      exists (w :: ws). split; [by constructor | done].
    + intros ->. by exists [].
Qed.

Lemma trimWith_empty_blank fuel s :
  String.length s ≤ fuel →
  trimWith whiteSpace fuel s = "" → blankWith fuel s = true.
Proof.
  assert (Hne : ∀ w, w ∈ whiteSpace → w ≠ "").
  { apply Forall_forall. by vm_compute; repeat constructor. }
  revert s. induction fuel as [|fuel IH]; intros s Hlen.
  - destruct s; [done | simpl in Hlen; lia].
  - destruct s as [|c s]; [done|].
    rewrite trimWith_unfold.
    change (blankWith (S fuel) (String c s))
      with (match dropOneOf whiteSpace (String c s) with
            | Some rest => blankWith fuel rest
            | None => false
            end).
    destruct (dropOneOf whiteSpace (String c s)) as [r|] eqn:Hd; [|done].
    apply IH. apply (dropOneOf_shorter _ _ _ Hne) in Hd. lia.
Qed.

(** The names that the [trim] setter turns into the empty string are
    the blank ones. *)
Lemma trim_empty s : trim s = "" ↔ isBlank s = true.
Proof.
  split; [|apply trim_blank].
  assert (Hne : ∀ w, w ∈ whiteSpace → w ≠ "").
  { apply Forall_forall. by vm_compute; repeat constructor. }
  unfold trim, trimEnd. intros Hrev.
  apply (f_equal String.rev) in Hrev. rewrite string_rev_involutive in Hrev.
  change (String.rev "") with "" in Hrev.
  apply trimWith_empty in Hrev as (ws & Hws & Hcat).
  pose proof (trimWith_done whiteSpace (String.length s) s Hne (le_n _)) as Hdone.
  fold (trimStart s) in Hdone, Hcat.
  assert (Hstart : trimStart s = "").
  { destruct ws as [|w ws _] using rev_ind.
    - simpl in Hcat. apply (f_equal String.rev) in Hcat.
      by rewrite string_rev_involutive in Hcat.
    - apply Forall_app in Hws as [_ Hw%Forall_inv].
      apply list_elem_of_fmap in Hw as (w' & -> & Hw').
      rewrite foldr_app in Hcat. simpl in Hcat. rewrite app_empty_r in Hcat.
      assert (Hcat' : ∀ acc, foldr String.app acc ws
                             = foldr String.app "" ws +:+ acc).
      { clear. intros acc. induction ws as [|x ws IH]; [done|].
        simpl. by rewrite IH, string_app_assoc. }
      rewrite Hcat' in Hcat.
      apply (f_equal String.rev) in Hcat.
      rewrite string_rev_involutive, string_rev_app_distr, string_rev_involutive in Hcat.
      pose proof (dropOneOf_None _ _ w' Hdone Hw') as Hnone.
      rewrite Hcat, dropPrefix_app in Hnone. done. }
  by apply trimWith_empty_blank.
Qed.

Lemma rangeMatches_digit a : rangeMatches "0" "9" a = isDigit a.
Proof. by destruct a as [[] [] [] [] [] [] [] []]. Qed.

Lemma charMatches_hyphen a : charMatches "-" a = bool_decide (a = "-"%char).
Proof. by destruct a as [[] [] [] [] [] [] [] []]. Qed.

Lemma exec_literal base pos s k :
  exec (literal base) pos s k =
  match stripPrefix base s with
  | Some rest => k (pos + String.length base) rest
  | None => false
  end.
Proof.
  revert pos s. induction base as [|b base IH]; intros pos s; simpl.
  - by rewrite Nat.add_0_r.
  - destruct s as [|a s]; [done|].
    destruct (charMatches b a); [|done].
    rewrite IH. by rewrite Nat.add_succ_r.
Qed.

(** [[0-9]*] followed by the end of the input accepts digits only. *)
Lemma iterate_digits k fuel pos s :
  (∀ p s', k p s' = isEmpty s') →
  String.length s ≤ fuel →
  iterate (exec (Range "0" "9")) k fuel pos s = allDigits s.
Proof.
  intros Hk. revert pos s.
  induction fuel as [|fuel IH]; intros pos s Hlen.
  - destruct s; simpl in *; [by rewrite Hk | lia].
  - destruct s as [|a s]; simpl.
    + by rewrite Hk.
    + rewrite Hk, rangeMatches_digit. simpl. rewrite orb_false_r.
      destruct (isDigit a); [|done].
      rewrite bool_decide_eq_false_2 by lia.
      simpl in Hlen. rewrite IH by lia. done.
Qed.

Lemma search_anchored r pos s :
  search (Cat Bol r) (S pos) s = false.
Proof. revert pos. induction s as [|a s IH]; intros pos; simpl; auto. Qed.

Lemma test_anchored r s :
  test (Cat Bol r) s = exec r 0 s (λ _ _, true).
Proof.
  unfold test. destruct s as [|a s]; simpl.
  - by rewrite orb_false_r.
  - by rewrite search_anchored, orb_false_r.
Qed.

End JsFacts.

(** The expression built by the hook accepts the base slug up to case,
    alone or followed by a hyphen and any number of digits, none
    included. *)
Lemma slugRegEx_collides base v :
  Js.test (slugRegEx base) v = collides base v.
Proof.
  unfold slugRegEx, collides, suffixedBy.
  rewrite test_anchored. simpl. rewrite exec_literal.
  destruct (Js.stripPrefix base v) as [rest|]; [|done].
  destruct rest as [|c ds]; simpl; [done|].
  rewrite orb_false_r, charMatches_hyphen.
  destruct (bool_decide (c = "-"%char)); [|done]. simpl.
  rewrite iterate_digits; [by rewrite andb_true_r| |done].
  intros p [|??]; done.
Qed.

(** The expression of the specification wants a digit after the hyphen. *)
Lemma specSlugRegEx_numbered base v :
  Js.test (specSlugRegEx base) v = numbered base v.
Proof.
  unfold specSlugRegEx, numbered, suffixedBy.
  rewrite test_anchored. simpl. rewrite exec_literal.
  destruct (Js.stripPrefix base v) as [rest|]; [|done].
  destruct rest as [|c ds]; simpl; [done|].
  rewrite orb_false_r, charMatches_hyphen.
  destruct (bool_decide (c = "-"%char)); [|done]. simpl.
  destruct ds as [|a ds]; simpl; [done|].
  rewrite rangeMatches_digit. fold (Js.isDigit a).
  destruct (Js.isDigit a); [|done]. simpl.
  rewrite iterate_digits; [by rewrite andb_true_r| |done].
  intros p [|??]; done.
Qed.

(** ** Saving a store *)

Section SaveFacts.
Variable slugs : string → string.

Lemma find_length conditions db :
  length (find conditions db) =
  length (filter (λ s, conditions s = true) (coll_stores db)).
Proof. unfold find. by rewrite length_fmap. Qed.

Lemma slugCondition_collides base s :
  slugCondition (slugRegEx base) s = slugCollides base s.
Proof.
  unfold slugCondition, slugCollides.
  destruct (slug s); [apply slugRegEx_collides | done].
Qed.

Lemma storesWithSlug_length base db :
  length (find (slugCondition (slugRegEx base)) db) = collisions base db.
Proof.
  rewrite find_length. unfold collisions. f_equal.
  apply list_filter_iff. intros s. by rewrite slugCondition_collides.
Qed.

Lemma collisions_insertOne base s db :
  collisions base (insertOne s db) =
  collisions base db + (if slugCollides base s then 1 else 0).
Proof.
  unfold collisions, insertOne. simpl.
  rewrite filter_app, length_app. f_equal.
  rewrite filter_cons, filter_nil.
  destruct (slugCollides base s); by case_decide.
Qed.

Lemma preSave_modified db d n :
  isModified "name" d = true →
  name (doc d) = Some n →
  ∃ d', preSave slugs db d = inr d'
        ∧ slug (doc d') = Some (assigned (slugs n) db)
        ∧ isNew d' = isNew d
        ∧ _id (doc d') = _id (doc d)
        ∧ location (doc d') = location (doc d).
Proof.
  intros Hmod Hname. unfold preSave, assigned.
  rewrite Hmod, Hname. simpl. rewrite storesWithSlug_length.
  destruct (collisions (slugs n) db) as [|m]; simpl; eauto 10.
Qed.

Lemma preSave_unmodified db d :
  isModified "name" d = false → preSave slugs db d = inr d.
Proof. intros H. unfold preSave. by rewrite H. Qed.

Lemma save_invalid db d :
  validate d ≠ [] →
  save slugs db d = (db, inl (ValidationError (validate d))).
Proof. intros H. unfold save. by destruct (validate d). Qed.

Lemma newStore_name_modified id now i n :
  in_name i = Some n → isModified "name" (newStore id now i) = true.
Proof.
  intros H. unfold isModified, newStore, setPaths; simpl. rewrite H.
  apply bool_decide_eq_true. left.
Qed.

(** A valid new store with a name is inserted with the assigned slug. *)
Lemma createStore_valid db id now i n :
  in_name i = Some n →
  validate (newStore id now i) = [] →
  ∃ d', createStore slugs db id now i = (insertOne (doc d') db, inr (saved d'))
        ∧ slug (doc d') = Some (assigned (slugs (Js.trim n)) db)
        ∧ location (doc d') = location (doc (newStore id now i)).
Proof.
  intros Hn Hv.
  destruct (preSave_modified db (newStore id now i) (Js.trim n))
    as (d' & Hpre & Hslug & Hnew & _ & Hloc).
  { by eapply newStore_name_modified. }
  { simpl. by rewrite Hn. }
  exists d'. unfold createStore, save. rewrite Hv, Hpre, Hnew. simpl. auto.
Qed.

End SaveFacts.

(** ** The slug of a store *)

(** C1. The hook gives a document whose name was set the slug of the
    name when no stored slug collides with it, and that slug followed
    by a hyphen and N+1 when N stored slugs collide.  Hence three stores
    named "Coffee Shop", created one after the other in a catalog where
    nothing collides with [coffee-shop], get the slugs [coffee-shop],
    [coffee-shop-2] and [coffee-shop-3], in that order. *)
Theorem slug_by_collision_count (slugs : string → string) :
  (∀ db d n,
     isModified "name" d = true → name (doc d) = Some n →
     ∃ d', preSave slugs db d = inr d'
       ∧ (collisions (slugs n) db = 0 → slug (doc d') = Some (slugs n))
       ∧ (∀ N, collisions (slugs n) db = N → 0 < N →
            slug (doc d') = Some (slugs n +:+ "-" +:+ Js.toString (N + 1))))
  ∧ (∀ base db, collisions base db
                = length (find (slugCondition (slugRegEx base)) db))
  ∧ (slugs "Coffee Shop" = "coffee-shop" →
     ∀ db0 id1 id2 id3 now1 now2 now3 i1 i2 i3,
       collisions "coffee-shop" db0 = 0 →
       in_name i1 = Some "Coffee Shop" → validate (newStore id1 now1 i1) = [] →
       in_name i2 = Some "Coffee Shop" → validate (newStore id2 now2 i2) = [] →
       in_name i3 = Some "Coffee Shop" → validate (newStore id3 now3 i3) = [] →
       ∃ db1 db2 db3 d1 d2 d3,
         createStore slugs db0 id1 now1 i1 = (db1, inr d1)
         ∧ createStore slugs db1 id2 now2 i2 = (db2, inr d2)
         ∧ createStore slugs db2 id3 now3 i3 = (db3, inr d3)
         ∧ slug (doc d1) = Some "coffee-shop"
         ∧ slug (doc d2) = Some "coffee-shop-2"
         ∧ slug (doc d3) = Some "coffee-shop-3"
         ∧ coll_stores db3 = coll_stores db0 ++ [doc d1; doc d2; doc d3]).
Proof.
  split; [|split].
  - intros db d n Hmod Hname.
    destruct (preSave_modified slugs db d n Hmod Hname) as (d' & Hpre & Hslug & _).
    exists d'. split; [done|]. unfold assigned in Hslug. split.
    + intros H0. by rewrite H0 in Hslug.
    + intros N HN Hpos. rewrite HN in Hslug. by destruct N; [lia|].
  - intros base db. symmetry. apply storesWithSlug_length.
  - intros Hslugs db0 id1 id2 id3 now1 now2 now3 i1 i2 i3 H0 Hn1 Hv1 Hn2 Hv2 Hn3 Hv3.
    assert (Htrim : Js.trim "Coffee Shop" = "Coffee Shop") by reflexivity.
    destruct (createStore_valid slugs db0 id1 now1 i1 _ Hn1 Hv1) as (d1 & Hc1 & Hs1 & _).
    rewrite Htrim, Hslugs in Hs1. unfold assigned in Hs1. rewrite H0 in Hs1.
    set (db1 := insertOne (doc d1) db0) in *.
    assert (H1 : collisions "coffee-shop" db1 = 1).
    { unfold db1. rewrite collisions_insertOne, H0.
      unfold slugCollides. by rewrite Hs1. }
    destruct (createStore_valid slugs db1 id2 now2 i2 _ Hn2 Hv2) as (d2 & Hc2 & Hs2 & _).
    rewrite Htrim, Hslugs in Hs2. unfold assigned in Hs2. rewrite H1 in Hs2.
    set (db2 := insertOne (doc d2) db1) in *.
    assert (H2 : collisions "coffee-shop" db2 = 2).
    { unfold db2. rewrite collisions_insertOne, H1.
      unfold slugCollides. by rewrite Hs2. }
    destruct (createStore_valid slugs db2 id3 now3 i3 _ Hn3 Hv3) as (d3 & Hc3 & Hs3 & _).
    rewrite Htrim, Hslugs in Hs3. unfold assigned in Hs3. rewrite H2 in Hs3.
    exists db1, db2, (insertOne (doc d3) db2), (saved d1), (saved d2), (saved d3).
    repeat split; try done.
    unfold db2, db1. simpl. by rewrite <- !(assoc_L (++)).
Qed.

Lemma slug_by_collision_count_witness :
  ∃ db1 db2 db3 d1 d2 d3,
    createStore Slugs.slugs oneStoreDb 41 10 coffeeShop = (db1, inr d1)
    ∧ createStore Slugs.slugs db1 42 11 coffeeShop = (db2, inr d2)
    ∧ createStore Slugs.slugs db2 43 12 coffeeShop = (db3, inr d3)
    ∧ slug (doc d1) = Some "coffee-shop"
    ∧ slug (doc d2) = Some "coffee-shop-2"
    ∧ slug (doc d3) = Some "coffee-shop-3"
    ∧ coll_stores db3 = coll_stores oneStoreDb ++ [doc d1; doc d2; doc d3].
Proof.
  apply (proj2 (proj2 (slug_by_collision_count Slugs.slugs)));
    reflexivity.
Defined.

(** The three creations, run on the sample catalog. *)
Example coffee_shop_three_times :
  let r1 := createStore Slugs.slugs oneStoreDb 41 10 coffeeShop in
  let r2 := createStore Slugs.slugs r1.1 42 11 coffeeShop in
  let r3 := createStore Slugs.slugs r2.1 43 12 coffeeShop in
  slug <$> coll_stores r3.1
  = [Some "tea-house"; Some "coffee-shop"; Some "coffee-shop-2"; Some "coffee-shop-3"].
Proof. reflexivity. Qed.

(** C2. Saving a document whose name was not changed leaves its slug as
    it is: the hook returns the document untouched, a valid document is
    written with the slug it had, and an invalid one is refused with the
    database unchanged.  No suffix is added. *)
Theorem resave_keeps_slug (slugs : string → string) (db : DB) (d : Document) :
  isModified "name" d = false →
  preSave slugs db d = inr d
  ∧ (validate d = [] →
     ∃ db', save slugs db d = (db', inr (saved d))
       ∧ slug (doc (saved d)) = slug (doc d)
       ∧ (isNew d = false →
          ∀ s, s ∈ coll_stores db' → _id s = _id (doc d) → slug s = slug (doc d)))
  ∧ (validate d ≠ [] →
     save slugs db d = (db, inl (ValidationError (validate d)))).
Proof.
  intros Hmod. pose proof (preSave_unmodified slugs db d Hmod) as Hpre.
  split; [done|]. split.
  - intros Hv. unfold save. rewrite Hv, Hpre.
    eexists. split; [done|]. split; [done|].
    intros Hnew s. rewrite Hnew. unfold updateOne. simpl.
    intros (t & -> & _)%list_elem_of_fmap. by case_bool_decide; [|done].
  - apply save_invalid.
Qed.

Lemma resave_keeps_slug_witness :
  preSave Slugs.slugs oneStoreDb (hydrate teaHouse) = inr (hydrate teaHouse)
  ∧ save Slugs.slugs oneStoreDb (hydrate teaHouse) = (oneStoreDb, inr (hydrate teaHouse)).
Proof.
  destruct (resave_keeps_slug Slugs.slugs oneStoreDb (hydrate teaHouse)) as (H1 & H2 & _);
    [reflexivity|].
  split; [exact H1|].
  destruct H2 as (db' & H & _); [reflexivity|]. reflexivity.
Defined.

(** C3. The stores counted as collisions are those whose slug the
    expression of the hook accepts.  That expression ends in [[0-9]*],
    not [[0-9]+]: it accepts what the pattern [^(base)(-[0-9]+)?$]
    accepts and, besides, the base followed by a bare hyphen.  With the
    slug [wes-] stored, a new store named "Wes" counts one collision and
    is given [wes-2]. *)
Theorem bare_hyphen_is_counted :
  (∀ base v,
     Js.test (slugRegEx base) v = true
     ↔ Js.test (specSlugRegEx base) v = true ∨ Js.stripPrefix base v = Some "-")
  ∧ Js.test (slugRegEx "wes") "wes-" = true
  ∧ Js.test (specSlugRegEx "wes") "wes-" = false
  ∧ length (find (slugCondition (slugRegEx "wes")) wesDashDb) = 1
  ∧ (∃ db' d, createStore Slugs.slugs wesDashDb 51 5 (withName (Some "Wes") coffeeShop)
              = (db', inr d)
              ∧ slug (doc d) = Some "wes-2").
Proof.
  split; [|repeat split; eauto].
  intros base v. rewrite slugRegEx_collides, specSlugRegEx_numbered.
  unfold collides, numbered, suffixedBy.
  destruct (Js.stripPrefix base v) as [[|c [|a ds]]|]; simpl.
  - split; auto.
  - rewrite andb_true_r, andb_false_r, bool_decide_eq_true. split.
    + intros ->. by right.
    + intros [?|[= ->]]; done.
  - rewrite !andb_true_r. split; [auto|]. by intros [?|?].
  - split; [done|]. by intros [?|?].
Qed.

(** ** Validation *)

Lemma validate_nil d :
  validate d = [] →
  requiredString (name (doc d)) = true
  ∧ castErrors d = []
  ∧ forallb requiredValue (coordinates (location (doc d))) = true
  ∧ requiredString (address (location (doc d))) = true
  ∧ requiredValue (author (doc d)) = true.
Proof.
  unfold validate, check. intros H.
  repeat match type of H with
         | _ ++ _ = [] => apply app_eq_nil in H; destruct H as [? H]
         end.
  repeat match goal with
         | H : (if ?b then _ else _) = [] |- _ => destruct b; [clear H | discriminate H]
         end.
  repeat split. by eapply fmap_nil_inv.
Qed.

Lemma forallb_requiredValue {A} (l : list (option A)) :
  forallb requiredValue l = true → Forall is_Some l.
Proof.
  induction l as [|[x|] l IH]; simpl; intros H; [constructor| |done].
  constructor; [by eexists | auto].
Qed.

(** C9. Creating a store whose name is empty or made of white space
    only fails with a validation error on [name]; the database is left
    as it was, so no record and no slug is written. *)
Theorem blank_name_rejected (slugs : string → string) (db : DB)
    (id : ObjectId) (now : Date) (i : StoreInput) (n : string) :
  in_name i = Some n →
  Js.isBlank n = true →
  ∃ errors,
    createStore slugs db id now i = (db, inl (ValidationError errors))
    ∧ ("name", "Please enter a store name!") ∈ errors.
Proof.
  intros Hn Hblank.
  assert (Hname : name (doc (newStore id now i)) = Some "").
  { simpl. by rewrite Hn, <- (trim_blank n Hblank). }
  assert (Hin : ("name", "Please enter a store name!") ∈ validate (newStore id now i)).
  { unfold validate. rewrite Hname. simpl. left. }
  exists (validate (newStore id now i)). split; [|done].
  unfold createStore. apply save_invalid. intros Hnil.
  rewrite Hnil in Hin. by apply not_elem_of_nil in Hin.
Qed.

Lemma blank_name_rejected_witness :
  ∃ errors,
    createStore Slugs.slugs oneStoreDb 41 10 (withName (Some "   ") coffeeShop)
    = (oneStoreDb, inl (ValidationError errors))
    ∧ ("name", "Please enter a store name!") ∈ errors.
Proof.
  apply (blank_name_rejected Slugs.slugs oneStoreDb 41 10
           (withName (Some "   ") coffeeShop) "   "); reflexivity.
Defined.

(** A name made of a no-break space (U+00A0), an ideographic space
    (U+3000) and a line separator (U+2028) is trimmed to the empty
    string and refused like a name of spaces. *)
Example unicode_blank_name_rejected :
  let n := Js.utf8 0xA0 +:+ Js.utf8 0x3000 +:+ Js.utf8 0x2028 in
  Js.isBlank n = true
  ∧ Js.trim n = ""
  ∧ createStore Slugs.slugs oneStoreDb 41 10 (withName (Some n) coffeeShop)
    = (oneStoreDb,
       inl (ValidationError [("name", "Please enter a store name!")])).
Proof. by vm_compute. Qed.

Lemma preSave_location slugs db d d' :
  preSave slugs db d = inr d' →
  location (doc d') = location (doc d) ∧ isNew d' = isNew d.
Proof.
  unfold preSave. destruct (isModified "name" d); simpl.
  - destruct (name (doc d)); [|done].
    destruct (length _ =? 0); simpl; by intros [= <-].
  - by intros [= <-].
Qed.

(** C10, as the schema has it.  The coordinates of a persisted store
    are an array whose components are all numbers: a save keeps that
    true of the whole collection.  Their number is the number of
    components the create supplied; the schema does not ask for a
    pair. *)
Theorem persisted_coordinates_numeric (slugs : string → string) (db : DB) :
  (∀ d db' d',
     (∀ s, s ∈ coll_stores db → numericCoordinates s) →
     save slugs db d = (db', inr d') →
     ∀ s, s ∈ coll_stores db' → numericCoordinates s)
  ∧ (∀ id now i db' d',
       createStore slugs db id now i = (db', inr d') →
       doc d' ∈ coll_stores db'
       ∧ numericCoordinates (doc d')
       ∧ ∀ vs, in_coordinates i = Some vs →
               length (coordinates (location (doc d'))) = length vs).
Proof.
  assert (Hsave : ∀ d db' d', save slugs db d = (db', inr d') →
    ∃ d1, location (doc d1) = location (doc d) ∧ doc d' = doc d1
          ∧ validate d = []
          ∧ db' = (if isNew d then insertOne (doc d1) db else updateOne (doc d1) db)).
  { intros d db' d'. unfold save.
    destruct (validate d) eqn:Hv; [|done].
    destruct (preSave slugs db d) as [e|d1] eqn:Hpre; [done|].
    destruct (preSave_location _ _ _ _ Hpre) as [Hloc Hnew].
    rewrite Hnew. intros [= <- <-]. by exists d1. }
  split.
  - intros d db' d' Hinv Hs s Hin.
    destruct (Hsave _ _ _ Hs) as (d1 & Hloc & _ & Hv & ->).
    assert (Hd1 : numericCoordinates (doc d1)).
    { unfold numericCoordinates. rewrite Hloc.
      apply forallb_requiredValue. by apply validate_nil in Hv as (_ & _ & ? & _). }
    destruct (isNew d); simpl in Hin.
    + apply elem_of_app in Hin as [?| ->%list_elem_of_singleton]; auto.
    + apply list_elem_of_fmap in Hin as (t & -> & Ht).
      case_bool_decide; auto.
  - intros id now i db' d' Hc. unfold createStore in Hc.
    destruct (Hsave _ _ _ Hc) as (d1 & Hloc & Hdoc & Hv & ->).
    apply validate_nil in Hv as (_ & Hcast & Hreq & _).
    simpl in *. rewrite Hdoc. split; [apply elem_of_app; right; left|].
    unfold numericCoordinates. rewrite Hloc. simpl.
    split; [by apply forallb_requiredValue|].
    intros vs Hvs. rewrite Hvs in *. simpl in *.
    destruct (castCoordinates vs) as [cs|] eqn:Hcs; simpl in *; [|done].
    symmetry. by eapply length_mapM.
Qed.

Lemma persisted_coordinates_numeric_witness :
  Forall numericCoordinates
    (coll_stores (createStore Slugs.slugs oneStoreDb 41 10 coffeeShop).1)
  ∧ length (coordinates (location (doc (newStore 41 10 coffeeShop))))
    = length [InNum (-798 # 10); InNum (432 # 10)].
Proof.
  pose proof (persisted_coordinates_numeric Slugs.slugs oneStoreDb) as [Hsave Hcreate].
  split.
  - apply Forall_forall.
    apply (Hsave (newStore 41 10 coffeeShop) _
             (saved (setSlug "coffee-shop" (newStore 41 10 coffeeShop)))).
    + intros s ->%list_elem_of_singleton. repeat constructor; by eexists.
    + reflexivity.
  - destruct (Hcreate 41 10 coffeeShop _ _ eq_refl) as (_ & _ & Hlen).
    apply (Hlen _ eq_refl).
Defined.

(** C10, as the specification words it, fails: a create that supplies
    three numbers is accepted and the store is persisted with the
    three. *)
Lemma three_coordinates_persisted :
  ∃ db' d,
    createStore Slugs.slugs emptyDb 41 10 threeCoordinates = (db', inr d)
    ∧ doc d ∈ coll_stores db'
    ∧ ¬ coordinatePair (doc d).
Proof.
  eexists _, _. split; [reflexivity|]. split.
  - simpl. left.
  - intros [Hlen _]. discriminate Hlen.
Qed.

(** ** The tag report *)

Global Instance tagCount_before_total : Total TagCount.before.
Proof.
  intros a b. unfold TagCount.before.
  destruct (lt_eq_lt_dec (TagCount.count a) (TagCount.count b)) as [[Hlt|Heq]|Hgt].
  - right. by left.
  - destruct (total String.le (TagCount._id a) (TagCount._id b)).
    + left. by right.
    + right. by right.
  - left. by left.
Qed.

Global Instance tagCount_before_trans : Transitive TagCount.before.
Proof.
  intros a b c. unfold TagCount.before.
  intros [Hab|[Hab Hab']] [Hbc|[Hbc Hbc']].
  - left. lia.
  - left. lia.
  - left. lia.
  - right. split; [lia | by etrans].
Qed.

Lemma unwindTags_snd l : (unwindTags l).*2 = l ≫= tags.
Proof.
  unfold unwindTags. induction l as [|s l IH]; [done|].
  rewrite !bind_cons, fmap_app, IH. f_equal.
  rewrite <- list_fmap_compose. simpl. apply list_fmap_id.
Qed.

Lemma groupTags_lookup l t :
  groupTags l !! t =
  match length (filter (λ u, u = t) l.*2) with
  | O => None
  | S n => Some (S n)
  end.
Proof.
  induction l as [|[s u] l IH]; [done|].
  unfold groupTags in *. simpl foldr. rewrite fmap_cons, filter_cons. simpl.
  destruct (decide (u = t)) as [->|Hne].
  - rewrite lookup_insert_eq, IH. simpl.
    by destruct (length (filter (λ u, u = t) l.*2)).
  - by rewrite lookup_insert_ne.
Qed.

Lemma elem_of_getTagsList db x :
  x ∈ getTagsList db
  ↔ TagCount.count x = occurrences (TagCount._id x) db ∧ 0 < TagCount.count x.
Proof.
  unfold getTagsList. rewrite merge_sort_Permutation, list_elem_of_fmap.
  unfold occurrences. rewrite <- unwindTags_snd. split.
  - intros ([t n] & -> & Hin). apply elem_of_map_to_list in Hin.
    rewrite groupTags_lookup in Hin. simpl.
    destruct (length _); simplify_eq. split; [done | lia].
  - destruct x as [t n]. simpl. intros [Hn Hpos].
    exists (t, n). split; [done|].
    apply elem_of_map_to_list. rewrite groupTags_lookup, <- Hn.
    destruct n; [lia | done].
Qed.

(** C5. The tag report holds a tag with a count exactly when the count
    is the number of occurrences of the tag in the tag sequences of all
    stores (every occurrence counted, also within one store) and is not
    zero; each tag comes once; the entries are ordered by count from
    the largest down, and by tag upwards among equal counts.  The tags
    [[a,b]], [[a]], [[b,b]] give [(b,3)], [(a,2)]. *)
Theorem tags_counted_and_sorted :
  (∀ db t n,
     {| TagCount._id := t; TagCount.count := n |} ∈ getTagsList db
     ↔ n = occurrences t db ∧ 0 < n)
  ∧ (∀ db, NoDup (TagCount._id <$> getTagsList db))
  ∧ (∀ db, StronglySorted TagCount.before (getTagsList db))
  ∧ getTagsList tagsDb
    = [ {| TagCount._id := "b"; TagCount.count := 3 |};
        {| TagCount._id := "a"; TagCount.count := 2 |} ].
Proof.
  split; [|split; [|split]].
  - intros db t n. apply elem_of_getTagsList.
  - intros db. unfold getTagsList. rewrite merge_sort_Permutation.
    rewrite <- list_fmap_compose.
    apply (NoDup_fst_map_to_list (groupTags (unwindTags (coll_stores db)))).
  - intros db. apply StronglySorted_merge_sort; apply _.
  - reflexivity.
Qed.

Global Instance tagCount_before_antisym : AntiSymm (=) TagCount.before.
Proof.
  intros [t n] [u m]. unfold TagCount.before. simpl.
  intros [?|[-> Htu]] [?|[? Hut]]; try lia.
  f_equal. by apply (anti_symm String.le).
Qed.

(** The report does not depend on the order in which the groups come
    out of [$group]: it is the one list, sorted by the sort key, of the
    tags with their counts. *)
Lemma getTagsList_unique db l :
  (∀ x, x ∈ l ↔ x ∈ getTagsList db) →
  NoDup l →
  StronglySorted TagCount.before l →
  l = getTagsList db.
Proof.
  intros Hmem Hnd Hsorted.
  apply (StronglySorted_unique TagCount.before); [done| |].
  - apply StronglySorted_merge_sort; apply _.
  - apply NoDup_Permutation; [done| |done].
    apply (NoDup_fmap_1 TagCount._id).
    unfold getTagsList. rewrite merge_sort_Permutation, <- list_fmap_compose.
    apply (NoDup_fst_map_to_list (groupTags (unwindTags (coll_stores db)))).
Qed.

(** ** The report of the top stores *)

Ltac order_cases :=
  repeat match goal with
         | |- context [Z.compare ?a ?b] => destruct (Z.compare_spec a b)
         | |- context [Pos.compare_cont Eq ?a ?b] =>
             change (Pos.compare_cont Eq a b) with (Pos.compare a b);
             destruct (Pos.compare_spec a b)
         | H : context [Z.compare ?a ?b] |- _ => destruct (Z.compare_spec a b)
         | H : context [Pos.compare_cont Eq ?a ?b] |- _ =>
             change (Pos.compare_cont Eq a b) with (Pos.compare a b) in H;
             destruct (Pos.compare_spec a b)
         end.

(** The order of numbers in a sort is total and transitive, NaN, the
    infinities and the zeros included. *)
Lemma numberLe_total x y :
  TopStore.numberLe x y = true ∨ TopStore.numberLe y x = true.
Proof.
  unfold TopStore.numberLe.
  destruct x as [[]|[]| |[] m1 e1], y as [[]|[]| |[] m2 e2]; simpl; auto;
    order_cases; simpl; auto; subst; lia.
Qed.

Lemma numberLe_trans x y z :
  TopStore.numberLe x y = true → TopStore.numberLe y z = true →
  TopStore.numberLe x z = true.
Proof.
  unfold TopStore.numberLe.
  destruct x as [[]|[]| |[] m1 e1], y as [[]|[]| |[] m2 e2], z as [[]|[]| |[] m3 e3];
    simpl; try done; intros H1 H2; order_cases; simpl in *; try done; subst; lia.
Qed.

Lemma keyLe_total x y : TopStore.keyLe x y = true ∨ TopStore.keyLe y x = true.
Proof. destruct x as [a|], y as [b|]; simpl; auto using numberLe_total. Qed.

Lemma keyLe_trans x y z :
  TopStore.keyLe x y = true → TopStore.keyLe y z = true → TopStore.keyLe x z = true.
Proof.
  destruct x as [a|], y as [b|], z as [c|]; simpl; try done.
  apply numberLe_trans.
Qed.

Global Instance topStore_before_total : Total TopStore.before.
Proof. intros a b. unfold TopStore.before. apply keyLe_total. Qed.

Global Instance topStore_before_trans : Transitive TopStore.before.
Proof. intros a b c. unfold TopStore.before. intros ??. by eapply keyLe_trans. Qed.


(** What the stages before the sort let through: the stores with a
    second review, each with the reviews joined to it. *)
Lemma elem_of_matched db s rs :
  (s, rs) ∈ matchSecondReview (lookupReviews db (coll_stores db))
  ↔ s ∈ coll_stores db
    ∧ rs = filter (λ r, store r = _id s) (coll_reviews db)
    ∧ 2 ≤ length rs.
Proof.
  unfold matchSecondReview, lookupReviews.
  rewrite list_elem_of_filter, list_elem_of_fmap, lookup_lt_is_Some. simpl. split.
  - intros (Hlen & s' & [= -> ->] & Hin). auto.
  - intros (Hin & -> & Hlen). eauto.
Qed.

Lemma elem_of_rankedStores db e :
  e ∈ rankedStores db
  ↔ ∃ s, s ∈ coll_stores db
       ∧ 2 ≤ length (filter (λ r, store r = _id s) (coll_reviews db))
       ∧ e = project (s, filter (λ r, store r = _id s) (coll_reviews db)).
Proof.
  unfold rankedStores. rewrite merge_sort_Permutation, list_elem_of_fmap. split.
  - intros ([s rs] & -> & (Hin & -> & Hlen)%elem_of_matched). eauto.
  - intros (s & Hin & Hlen & ->). eexists (s, _). split; [done|].
    by apply elem_of_matched.
Qed.

Lemma rankedStores_rated db e :
  e ∈ rankedStores db → is_Some (TopStore.averageRating e).
Proof.
  intros (s & _ & Hlen & ->)%elem_of_rankedStores. simpl.
  destruct (filter _ _); simpl in *; [lia | by eexists].
Qed.

Lemma rankedStores_descending db :
  StronglySorted descending (rankedStores db).
Proof.
  assert (Hs : StronglySorted TopStore.before (rankedStores db)).
  { apply StronglySorted_merge_sort; apply _. }
  assert (Hr : Forall (λ e, is_Some (TopStore.averageRating e)) (rankedStores db)).
  { apply Forall_forall. intros e. apply rankedStores_rated. }
  induction Hs as [|a l Hs IH Ha]; [constructor|].
  apply Forall_cons in Hr as [[x Hx] Hr]. constructor; [auto|].
  rewrite Forall_forall in Ha, Hr |- *. intros b Hb.
  destruct (Hr b Hb) as [y Hy]. specialize (Ha b Hb).
  unfold descending, TopStore.before in *. rewrite Hx, Hy in *.
  done.
Qed.

Lemma getTopStores_subseteq db : getTopStores db ⊆ rankedStores db.
Proof. apply subseteq_take. Qed.

Lemma filter_fmap_comm {A B} (f : A → B) (P : B → Prop) `{∀ y, Decision (P y)}
    (l : list A) :
  filter P (f <$> l) = f <$> filter (λ x, P (f x)) l.
Proof.
  induction l as [|x l IH]; [done|].
  rewrite fmap_cons, !filter_cons. case_decide; [rewrite fmap_cons|]; by rewrite IH.
Qed.

Lemma matched_qualifying db :
  matchSecondReview (lookupReviews db (coll_stores db))
  = (λ s, (s, filter (λ r, store r = _id s) (coll_reviews db)))
      <$> filter (qualifies db) (coll_stores db).
Proof.
  unfold matchSecondReview, lookupReviews. rewrite filter_fmap_comm. f_equal.
  apply list_filter_iff. intros s. simpl. unfold qualifies.
  by rewrite lookup_lt_is_Some.
Qed.

Lemma rankedStores_ids db :
  TopStore._id <$> rankedStores db ≡ₚ _id <$> filter (qualifies db) (coll_stores db).
Proof.
  unfold rankedStores. rewrite merge_sort_Permutation, matched_qualifying.
  by rewrite <- !list_fmap_compose.
Qed.


Lemma wholeSumsExact_spec bound a r :
  wholeSumsExact bound = true →
  (0 ≤ a < bound)%Z → (0 ≤ r ≤ 5)%Z →
  Js.add (Js.number a) (Js.number r) = Js.number (a + r).
Proof.
  unfold wholeSumsExact. rewrite forallb_forall. intros Hall Ha Hr.
  assert (Hin : In a (seqZ 0 bound)).
  { apply list_elem_of_In, elem_of_seqZ. lia. }
  specialize (Hall a Hin). rewrite forallb_forall in Hall.
  assert (Hin' : In r (seqZ 0 6)).
  { apply list_elem_of_In, elem_of_seqZ. lia. }
  specialize (Hall r Hin'). by apply bool_decide_eq_true in Hall.
Qed.

Lemma wholeSumsExact_5000 : wholeSumsExact 5000 = true.
Proof. by vm_compute. Qed.

(** The sum of up to a thousand whole ratings from 0 to 5 is exact:
    it is the number their sum as integers converts to.  Their mean is
    then that sum divided by their count, rounded once. *)
Lemma sum_whole_ratings (zs : list Z) :
  Forall (λ z, 0 ≤ z ≤ 5)%Z zs →
  length zs ≤ 1000 →
  sum (Js.number <$> zs) = Js.number (foldr Z.add 0%Z zs)
  ∧ mean (Js.number <$> zs)
    = Js.div (Js.number (foldr Z.add 0%Z zs)) (Js.number (Z.of_nat (length zs))).
Proof.
  intros Hall Hlen.
  assert (Hsum : ∀ a, (0 ≤ a)%Z → (a + 5 * Z.of_nat (length zs) ≤ 5000)%Z →
    foldl Js.add (Js.number a) (Js.number <$> zs)
    = Js.number (a + foldr Z.add 0%Z zs)).
  { clear Hlen. induction Hall as [|z zs Hz Hall IH]; intros a Ha Hbound; simpl.
    - by rewrite Z.add_0_r.
    - simpl in Hbound.
      rewrite (wholeSumsExact_spec 5000) by (apply wholeSumsExact_5000 || lia).
      rewrite IH by lia. f_equal. lia. }
  assert (Hs : sum (Js.number <$> zs) = Js.number (foldr Z.add 0%Z zs)).
  { unfold sum. rewrite Hsum by lia. done. }
  split; [done|]. unfold mean. by rewrite Hs, length_fmap.
Qed.

(** C4. A store with at most one review has no entry in the report of
    the top stores; a store with two reviews or more has its entry among
    the ranked stores, and in the report when the limit does not cut
    it off: whenever at most ten stores qualify. *)
Theorem second_review_threshold (db : DB) (s : Store) :
  s ∈ coll_stores db →
  let joined := filter (λ r, store r = _id s) (coll_reviews db) in
  (length joined ≤ 1 → ∀ e, e ∈ getTopStores db → TopStore._id e ≠ _id s)
  ∧ (2 ≤ length joined →
     project (s, joined) ∈ rankedStores db
     ∧ (length (rankedStores db) ≤ 10 → project (s, joined) ∈ getTopStores db))
  ∧ (∀ e, e ∈ getTopStores db → 2 ≤ length (TopStore.reviews e)).
Proof.
  intros Hin joined. split; [|split].
  - intros Hle e He%getTopStores_subseteq Hid.
    apply elem_of_rankedStores in He as (s' & _ & Hlen & ->).
    simpl in Hid. rewrite Hid in Hlen. subst joined. lia.
  - intros Hge.
    assert (Hr : project (s, joined) ∈ rankedStores db).
    { apply elem_of_rankedStores. eauto. }
    split; [done|]. intros Hfew. unfold getTopStores. by rewrite take_ge.
  - intros e He%getTopStores_subseteq.
    by apply elem_of_rankedStores in He as (s' & _ & Hlen & ->).
Qed.

Lemma second_review_threshold_witness :
  (∀ e, e ∈ getTopStores ratedDb → TopStore._id e ≠ 3)
  ∧ project (tagged 2 [], [review 2 2 4; review 5 2 5]) ∈ getTopStores ratedDb.
Proof.
  split.
  - apply (second_review_threshold ratedDb (tagged 3 [])).
    + unfold ratedDb; simpl. do 2 right. left.
    + simpl. lia.
  - apply (second_review_threshold ratedDb (tagged 2 [])).
    + unfold ratedDb; simpl. right. left.
    + vm_compute. lia.
    + vm_compute. lia.
Defined.
(** The report over the sample reviews: the store with a 4 and a 5
    averages 4.5 and comes before the store that averages 3; the store
    with one review is left out. *)
Example getTopStores_ratedDb :
  (λ e, (TopStore._id e, TopStore.averageRating e)) <$> getTopStores ratedDb
  = [(2, Some (Js.div (Js.number 9) (Js.number 2)));
     (1, Some (Js.number 3))].
Proof. reflexivity. Qed.

(** The mean of 5, 5 and 4 is the binary64 number nearest to 14/3,
    which prints as 4.666666666666667: 5254199565265579 * 2^-50. *)
Example mean_5_5_4 :
  mean (Js.number <$> [5; 5; 4]%Z)
  = SpecFloat.S754_finite false 5254199565265579 (-50).
Proof. reflexivity. Qed.


(** C7, as the code has it.  [getTopStores] takes no limit: whatever a
    caller passes, the report is the first ten of the ranked stores, so
    it never has more than ten entries. *)
Theorem limit_is_ten (arguments : list nat) (db : DB) :
  getTopStores_call arguments db = take 10 (rankedStores db)
  ∧ length (getTopStores_call arguments db) ≤ 10
  ∧ getTopStores_call arguments db = getTopStores_call [] db.
Proof.
  unfold getTopStores_call, getTopStores. repeat split.
  rewrite length_take. lia.
Qed.

(** C7, as the specification words it, fails: a caller that asks for
    two entries gets three. *)
Lemma requested_limit_ignored :
  length (getTopStores_call [2] crowdedDb) = 3 ∧ 2 < 3.
Proof. split; [reflexivity | lia]. Qed.

(** ** Reading stores *)

Lemma filter_none {A} (P : A → Prop) `{∀ x, Decision (P x)} (l : list A) :
  (∀ x, x ∈ l → ¬ P x) → filter P l = [].
Proof.
  induction l as [|x l IH]; intros Hall; [done|].
  rewrite filter_cons. destruct (decide (P x)) as [HP|_].
  - destruct (Hall x); [left | done].
  - apply IH. intros y Hy. apply Hall. by right.
Qed.

Lemma NoDup_fmap_inj {A B} (f : A → B) (l : list A) x y :
  NoDup (f <$> l) → x ∈ l → y ∈ l → f x = f y → x = y.
Proof.
  induction l as [|a l IH]; [by intros _ ?%not_elem_of_nil|].
  rewrite fmap_cons, NoDup_cons.
  intros [Hnotin Hnd] [->|Hx]%elem_of_cons [->|Hy]%elem_of_cons Hf; auto.
  - destruct Hnotin. rewrite Hf. by apply list_elem_of_fmap_2.
  - destruct Hnotin. rewrite <- Hf. by apply list_elem_of_fmap_2.
Qed.

(** A save writes to the stores only. *)
Lemma save_reviews slugs db d :
  coll_reviews (save slugs db d).1 = coll_reviews db.
Proof.
  unfold save. destruct (validate d); [|done].
  destruct (preSave slugs db d) as [e|d']; [done|].
  by destruct (isNew d').
Qed.

(** Writing a stored record over itself changes nothing. *)
Lemma updateOne_stored s db :
  NoDup (_id <$> coll_stores db) → s ∈ coll_stores db → updateOne s db = db.
Proof.
  intros Hnd Hin. destruct db as [stores revs]. unfold updateOne. simpl in *.
  f_equal. rewrite <- (list_fmap_id stores) at 2.
  apply list_fmap_ext. intros k t Hk. simpl.
  case_bool_decide as Hid; [|done].
  symmetry. apply (NoDup_fmap_inj _id stores); [done| |done|done].
  by eapply list_elem_of_lookup_2.
Qed.

(** C8. Every store that [find] or [findOne] returns is a stored record
    that meets the conditions, and comes with [reviews] populated with
    exactly the reviews whose [store] is its [_id], in the order of the
    collection: the empty list when no review references it.  [find]
    returns every stored record that meets the conditions.  [reviews]
    is a virtual, not a path of the schema, and no write stores it: a
    save leaves the reviews collection, and so the reviews of every
    store, as they were; saving back a store as it was read leaves the
    whole database as it was; what is read as [reviews] depends on the
    reviews collection only, whatever the stores collection holds, and a
    review added to that collection is there at the next read. *)
Theorem reads_populate_reviews (conditions : Store → bool) (db : DB) :
  (∀ p, p ∈ find conditions db ↔
        ∃ s, s ∈ coll_stores db ∧ conditions s = true
             ∧ record p = s
             ∧ reviews p = filter (λ r, store r = _id s) (coll_reviews db))
  ∧ (∀ p, findOne conditions db = Some p →
          record p ∈ coll_stores db ∧ conditions (record p) = true
          ∧ reviews p = filter (λ r, store r = _id (record p)) (coll_reviews db))
  ∧ (findOne conditions db = None ↔
     ∀ s, s ∈ coll_stores db → conditions s = false)
  ∧ (∀ p, p ∈ find conditions db →
          (∀ r, r ∈ reviews p ↔ r ∈ coll_reviews db ∧ store r = _id (record p))
          ∧ ((∀ r, r ∈ coll_reviews db → store r ≠ _id (record p)) → reviews p = []))
  ∧ "reviews" ∈ virtualPaths ∧ ("reviews" ∉ schemaPaths)
  ∧ (∀ slugs d s,
       coll_reviews (save slugs db d).1 = coll_reviews db
       ∧ reviews (populate (save slugs db d).1 s) = reviews (populate db s))
  ∧ (∀ slugs p,
       NoDup (_id <$> coll_stores db) →
       p ∈ find conditions db →
       (save slugs db (hydrate (record p))).1 = db)
  ∧ (∀ db' s,
       coll_reviews db' = coll_reviews db →
       reviews (populate db' s) = reviews (populate db s))
  ∧ (∀ r s,
       reviews (populate {| coll_stores := coll_stores db;
                            coll_reviews := coll_reviews db ++ [r] |} s)
       = reviews (populate db s) ++ (if decide (store r = _id s) then [r] else [])).
Proof.
  assert (Hfind : ∀ p, p ∈ find conditions db ↔
        ∃ s, s ∈ coll_stores db ∧ conditions s = true
             ∧ record p = s
             ∧ reviews p = filter (λ r, store r = _id s) (coll_reviews db)).
  { intros p. unfold find. rewrite list_elem_of_fmap. split.
    - intros (s & -> & [Hc Hin]%list_elem_of_filter). by exists s.
    - intros (s & Hin & Hc & Hrec & Hrev). exists s. split.
      + destruct p. simpl in *. by subst.
      + by apply list_elem_of_filter. }
  split; [done|]. split; [|split; [|split; [|split; [|split]]]].
  - intros p Hp%head_Some_elem_of.
    apply Hfind in Hp as (s & Hin & Hc & Hrec & Hrev). by subst.
  - unfold findOne. rewrite head_None. unfold find. split.
    + intros Hnil%fmap_nil_inv s Hin.
      destruct (conditions s) eqn:Hc; [|done].
      by destruct (filter_nil_not_elem_of _ _ s Hnil Hc).
    + intros Hall. rewrite filter_none; [done|].
      intros s Hin. by rewrite (Hall s Hin).
  - intros p (s & Hin & Hc & Hrec & Hrev)%Hfind. subst s. rewrite Hrev. split.
    + intros r. rewrite list_elem_of_filter. tauto.
    + intros Hnone. apply filter_none. auto.
  - by left.
  - by apply (bool_decide_unpack _).
  - split; [|split; [|split]].
    + intros slugs d s. split; [apply save_reviews|].
      unfold populate. simpl. by rewrite save_reviews.
    + intros slugs p Hnd (s & Hin & _ & -> & _)%Hfind.
      unfold save. destruct (validate (hydrate s)); [|done].
      rewrite preSave_unmodified by done. simpl.
      by apply updateOne_stored.
    + intros db' s Hrev. unfold populate. simpl. by rewrite Hrev.
    + intros r s. unfold populate. simpl.
      rewrite filter_app, filter_cons, filter_nil. done.
Qed.

(** ** More on the slug hook *)

Section SlugFacts.
Import Js.

Lemma charMatches_refl c : charMatches c c = true.
Proof. unfold charMatches. by apply bool_decide_eq_true. Qed.

Lemma stripPrefix_app base rest : stripPrefix base (base +:+ rest) = Some rest.
Proof.
  induction base as [|b base IH]; [done|].
  change (String b base +:+ rest) with (String b (base +:+ rest)).
  simpl. by rewrite charMatches_refl.
Qed.

Lemma stripPrefix_self base : stripPrefix base base = Some "".
Proof.
  induction base as [|b base IH]; [done|]. simpl. by rewrite charMatches_refl.
Qed.

Lemma allDigits_string_of_uint d :
  allDigits (NilEmpty.string_of_uint d) = true.
Proof. induction d; simpl; auto. Qed.

Lemma allDigits_toString n : allDigits (toString n) = true.
Proof.
  unfold toString, NilZero.string_of_uint.
  destruct (Nat.to_uint n) eqn:E; try done;
    rewrite <- E; apply allDigits_string_of_uint.
Qed.

Lemma to_uint_nonnil n : Nat.to_uint n ≠ Decimal.Nil.
Proof.
  rewrite <- (DecimalNat.Unsigned.of_to n) at 1.
  rewrite DecimalNat.Unsigned.to_of. apply DecimalFacts.unorm_nonnil.
Qed.

Lemma toString_inj n m : toString n = toString m → n = m.
Proof.
  unfold toString. intros H.
  apply DecimalNat.Unsigned.to_uint_inj.
  pose proof (to_uint_nonnil n) as Hn. pose proof (to_uint_nonnil m) as Hm.
  pose proof (NilZero.usu _ Hn) as En. pose proof (NilZero.usu _ Hm) as Em.
  rewrite H in En. congruence.
Qed.

Lemma app_not_self base c rest : base +:+ String c rest ≠ base.
Proof.
  induction base as [|b base IH]; [done|].
  change (String b base +:+ String c rest) with (String b (base +:+ String c rest)).
  intros [= H]. by apply IH.
Qed.

End SlugFacts.

Lemma collides_base base : collides base base = true.
Proof. unfold collides, suffixedBy. by rewrite stripPrefix_self. Qed.

Lemma collides_suffixed base n :
  collides base (base +:+ "-" +:+ Js.toString n) = true.
Proof.
  unfold collides, suffixedBy. rewrite stripPrefix_app.
  change ("-" +:+ Js.toString n) with (String "-" (Js.toString n)).
  cbv iota beta. by rewrite allDigits_toString.
Qed.

Lemma collides_numberedSlug base m : collides base (numberedSlug base m) = true.
Proof.
  destruct m as [|[|m]]; simpl; auto using collides_base, collides_suffixed.
Qed.

Lemma assigned_numberedSlug base db :
  assigned base db = numberedSlug base (collisions base db + 1).
Proof.
  unfold assigned. destruct (collisions base db) as [|m]; [done|].
  by rewrite Nat.add_1_r.
Qed.

Lemma numberedSlug_inj base m m' :
  0 < m → 0 < m' → numberedSlug base m = numberedSlug base m' → m = m'.
Proof.
  intros Hm Hm'.
  destruct m as [|[|m]], m' as [|[|m']]; try lia; try done; simpl; intros H.
  - symmetry in H. by apply app_not_self in H.
  - by apply app_not_self in H.
  - apply (inj (String.app base)) in H. injection H as H.
    by apply toString_inj.
Qed.

Section SequenceFacts.
Variable slugs : string → string.

Lemma createStore_for base db id now i :
  requestFor slugs base (id, now, i) →
  ∃ d', createStore slugs db id now i = (insertOne (doc d') db, inr (saved d'))
        ∧ slug (doc d') = Some (numberedSlug base (collisions base db + 1)).
Proof.
  intros [Hv (n & Hn & Hbase)]. simpl in *.
  destruct (createStore_valid slugs db id now i n Hn Hv) as (d' & Hc & Hs & _).
  exists d'. split; [done|]. by rewrite Hs, Hbase, assigned_numberedSlug.
Qed.

Lemma collisions_insert_numbered base db s m :
  slug s = Some (numberedSlug base m) →
  collisions base (insertOne s db) = collisions base db + 1.
Proof.
  intros Hs. rewrite collisions_insertOne. unfold slugCollides.
  by rewrite Hs, collides_numberedSlug.
Qed.

Lemma storedSlugs_insertOne s db v :
  slug s = Some v → storedSlugs (insertOne s db) = storedSlugs db ++ [v].
Proof.
  intros Hs. unfold storedSlugs, insertOne. simpl.
  rewrite omap_app. simpl. by rewrite Hs.
Qed.

Lemma createEach_numbered base requests db :
  Forall (requestFor slugs base) requests →
  let r := createEach slugs db requests in
  let numbers := seq (collisions base db + 1) (length requests) in
  resultSlug <$> r.2 = (λ m, Some (numberedSlug base m)) <$> numbers
  ∧ storedSlugs r.1 = storedSlugs db ++ (numberedSlug base <$> numbers)
  ∧ collisions base r.1 = collisions base db + length requests.
Proof.
  intros Hall. revert db.
  induction Hall as [|[[id now] i] rest Hrq Hrest IH]; intros db; simpl.
  - by rewrite app_nil_r, Nat.add_0_r.
  - destruct (createStore_for base db id now i Hrq) as (d' & Hc & Hs).
    rewrite Hc. simpl.
    destruct (IH (insertOne (doc d') db)) as (IH1 & IH2 & IH3).
    rewrite (collisions_insert_numbered _ _ _ _ Hs) in IH1, IH2, IH3.
    rewrite (storedSlugs_insertOne _ _ _ Hs) in IH2.
    replace (S (collisions base db + 1)) with (collisions base db + 1 + 1) by lia.
    split; [|split].
    + rewrite Hs. f_equal. exact IH1.
    + rewrite IH2, <- (assoc_L (++)). reflexivity.
    + rewrite IH3. lia.
Qed.

End SequenceFacts.

Lemma collisions_none base db v :
  collisions base db = 0 → v ∈ storedSlugs db → collides base v = false.
Proof.
  unfold collisions, storedSlugs. intros Hlen%nil_length_inv Hin.
  apply list_elem_of_omap in Hin as (s & Hs & Hv).
  destruct (collides base v) eqn:Hc; [|done].
  destruct (filter_nil_not_elem_of _ _ s Hlen); [|done].
  unfold slugCollides. by rewrite Hv.
Qed.

(** X1. Requests that pass validation and whose names all have the slug
    [base], saved one after the other, are given consecutive numbers
    that go on from the number of stored slugs that collide with
    [base]: with N collisions at the start the slugs are number N+1,
    N+2, ... (number 1 being the bare base), each is stored, and the
    count of collisions grows by one with each save. *)
Theorem same_base_consecutive_numbers (slugs : string → string) (base : string)
    (requests : list (ObjectId * Date * StoreInput)) (db : DB) :
  Forall (requestFor slugs base) requests →
  let r := createEach slugs db requests in
  let numbers := seq (collisions base db + 1) (length requests) in
  resultSlug <$> r.2 = (λ m, Some (numberedSlug base m)) <$> numbers
  ∧ storedSlugs r.1 = storedSlugs db ++ (numberedSlug base <$> numbers)
  ∧ collisions base r.1 = collisions base db + length requests.
Proof. apply createEach_numbered. Qed.

Lemma same_base_consecutive_numbers_witness :
  resultSlug <$> (createEach Slugs.slugs oneStoreDb coffeeShopRequests).2
  = [Some "coffee-shop"; Some "coffee-shop-2"; Some "coffee-shop-3"]
  ∧ storedSlugs (createEach Slugs.slugs oneStoreDb coffeeShopRequests).1
    = ["tea-house"; "coffee-shop"; "coffee-shop-2"; "coffee-shop-3"]
  ∧ collisions "coffee-shop" (createEach Slugs.slugs oneStoreDb coffeeShopRequests).1
    = 3.
Proof.
  apply (same_base_consecutive_numbers Slugs.slugs "coffee-shop"
           coffeeShopRequests oneStoreDb).
  repeat constructor; by eexists.
Defined.

(** X2. In a catalog whose slugs are pairwise distinct and where none
    collides with [base], saving any number of valid requests with that
    base, one after the other, leaves the slugs pairwise distinct. *)
Theorem sequential_slugs_distinct (slugs : string → string) (base : string)
    (requests : list (ObjectId * Date * StoreInput)) (db : DB) :
  collisions base db = 0 →
  NoDup (storedSlugs db) →
  Forall (requestFor slugs base) requests →
  NoDup (storedSlugs (createEach slugs db requests).1).
Proof.
  intros H0 Hnd Hall.
  destruct (createEach_numbered slugs base requests db Hall) as (_ & -> & _).
  rewrite H0. simpl. apply NoDup_app. split; [done|]. split.
  - intros v Hv (m & -> & _)%list_elem_of_fmap.
    apply (collisions_none base db) in Hv; [|done].
    by rewrite collides_numberedSlug in Hv.
  - apply NoDup_fmap_2_strong; [|apply NoDup_seq].
    intros m m' Hm%elem_of_seq Hm'%elem_of_seq.
    apply numberedSlug_inj; lia.
Qed.

Lemma sequential_slugs_distinct_witness :
  NoDup (storedSlugs (createEach Slugs.slugs oneStoreDb coffeeShopRequests).1).
Proof.
  apply (sequential_slugs_distinct Slugs.slugs "coffee-shop").
  - reflexivity.
  - apply NoDup_singleton.
  - repeat constructor; by eexists.
Defined.

Section HookFacts.
Variable slugs : string → string.

Lemma collisions_pos base db s :
  s ∈ coll_stores db → slugCollides base s = true → 1 ≤ collisions base db.
Proof.
  intros Hin Hc. unfold collisions.
  assert (Hs : s ∈ filter (λ s, slugCollides base s = true) (coll_stores db))
    by by apply list_elem_of_filter.
  destruct (filter _ _); [by apply not_elem_of_nil in Hs | simpl; lia].
Qed.

Lemma setSlug_frame v d :
  sameButSlug d (setSlug v d)
  ∧ ∀ p, p ∈ modifiedPaths (setSlug v d) ↔ p ∈ modifiedPaths d ∨ p = "slug".
Proof.
  split; [by repeat split|]. intros p. unfold setSlug. simpl.
  unfold isModified. case_bool_decide as Hm.
  - split; [auto|]. by intros [?| ->].
  - rewrite elem_of_app, list_elem_of_singleton. tauto.
Qed.

Lemma sameButSlug_trans d1 d2 d3 :
  sameButSlug d1 d2 → sameButSlug d2 d3 → sameButSlug d1 d3.
Proof.
  unfold sameButSlug.
  intros (?&?&?&?&?&?&?&?&?&?) (?&?&?&?&?&?&?&?&?&?). repeat split; congruence.
Qed.

Lemma preSave_frame db d d' :
  preSave slugs db d = inr d' →
  sameButSlug d d'
  ∧ (∀ p, p ∈ modifiedPaths d → p ∈ modifiedPaths d')
  ∧ (∀ p, p ∈ modifiedPaths d' → p ∈ modifiedPaths d ∨ p = "slug").
Proof.
  unfold preSave. destruct (isModified "name" d) eqn:Hmod; simpl.
  - destruct (name (doc d)) as [n|]; [|done].
    destruct (setSlug_frame (slugs n) d) as [Hsame Hpaths].
    destruct (length _ =? 0); simpl; intros [= <-].
    + split; [done|]. split; intros p; rewrite Hpaths; tauto.
    + destruct (setSlug_frame
                  (slugs n +:+ "-" +:+
                   Js.toString (length (find (slugCondition (slugRegEx (slugs n))) db) + 1))
                  (setSlug (slugs n) d)) as [Hsame' Hpaths'].
      split; [by eapply sameButSlug_trans|].
      split; intros p; rewrite Hpaths', Hpaths; tauto.
  - intros [= <-]. split; [by repeat split|]. auto.
Qed.

End HookFacts.

(** X3. A stored record whose name is changed, to a name whose slug
    collides with the slug the record has, counts itself: the hook
    finds at least one collision, so the record is never given the bare
    slug of its new name but that slug with a hyphen and a number, also
    when no other store has it. *)
Theorem renamed_store_counts_itself (slugs : string → string) (db : DB)
    (s : Store) (n : string) :
  s ∈ coll_stores db →
  name s ≠ Some (Js.trim n) →
  slugCollides (slugs (Js.trim n)) s = true →
  let base := slugs (Js.trim n) in
  ∃ d', preSave slugs db (setName n (hydrate s)) = inr d'
        ∧ 1 ≤ collisions base db
        ∧ slug (doc d') = Some (base +:+ "-" +:+ Js.toString (collisions base db + 1))
        ∧ slug (doc d') ≠ Some base.
Proof.
  intros Hin Hname Hc base.
  assert (Hmod : isModified "name" (setName n (hydrate s)) = true).
  { unfold isModified, setName. simpl.
    by rewrite (bool_decide_eq_false_2 _ Hname). }
  destruct (preSave_modified slugs db (setName n (hydrate s)) (Js.trim n) Hmod eq_refl)
    as (d' & Hpre & Hslug & _).
  pose proof (collisions_pos base db s Hin Hc) as Hpos.
  exists d'. split; [done|]. split; [done|].
  fold base in Hslug. unfold assigned in Hslug.
  destruct (collisions base db) as [|m] eqn:Hm; [lia|].
  rewrite Hslug. split; [done|].
  intros [= H]. by apply app_not_self in H.
Qed.

Lemma renamed_store_counts_itself_witness :
  ∃ d', preSave Slugs.slugs aloneDb
          (setName "Coffee Shop!" (hydrate (slugged 1 "coffee-shop"))) = inr d'
        ∧ 1 ≤ collisions "coffee-shop" aloneDb
        ∧ slug (doc d') = Some ("coffee-shop" +:+ "-" +:+ Js.toString (1 + 1))
        ∧ slug (doc d') ≠ Some "coffee-shop".
Proof.
  apply (renamed_store_counts_itself Slugs.slugs aloneDb (slugged 1 "coffee-shop")
           "Coffee Shop!").
  - left.
  - discriminate.
  - reflexivity.
Defined.

(** X4. The number in a slug comes from counting, not from looking for
    a free one: when the slug numbered one more than the count of
    collisions is already stored, a valid new store is saved under that
    same slug, and the stored slugs are no longer pairwise distinct. *)
Theorem count_reuses_taken_number (slugs : string → string) (base : string)
    (db : DB) (id : ObjectId) (now : Date) (i : StoreInput) :
  requestFor slugs base (id, now, i) →
  numberedSlug base (collisions base db + 1) ∈ storedSlugs db →
  ∃ db' d,
    createStore slugs db id now i = (db', inr d)
    ∧ slug (doc d) = Some (numberedSlug base (collisions base db + 1))
    ∧ ¬ NoDup (storedSlugs db').
Proof.
  intros Hrq Htaken.
  destruct (createStore_for slugs base db id now i Hrq) as (d' & Hc & Hs).
  exists (insertOne (doc d') db), (saved d'). split; [done|]. split; [done|].
  rewrite (storedSlugs_insertOne _ _ _ Hs).
  intros [_ [Hdisj _]]%NoDup_app. apply (Hdisj _ Htaken). left.
Qed.

Lemma count_reuses_taken_number_witness :
  ∃ db' d,
    createStore Slugs.slugs gapDb 41 10 coffeeShop = (db', inr d)
    ∧ slug (doc d) = Some (numberedSlug "coffee-shop" (2 + 1))
    ∧ ¬ NoDup (storedSlugs db').
Proof.
  apply (count_reuses_taken_number Slugs.slugs "coffee-shop" gapDb 41 10 coffeeShop).
  - split; [reflexivity|]. by eexists.
  - right. left.
Defined.

(** X5. The hook changes nothing but the slug: the document it hands on
    has the same [_id], name, description, tags, date, location, photo
    and author, is new or not as before, keeps every path that was
    marked modified, and marks no path but [slug]. *)
Theorem hook_changes_only_slug (slugs : string → string) (db : DB)
    (d d' : Document) :
  preSave slugs db d = inr d' →
  sameButSlug d d'
  ∧ (∀ p, p ∈ modifiedPaths d → p ∈ modifiedPaths d')
  ∧ (∀ p, p ∈ modifiedPaths d' → p ∈ modifiedPaths d ∨ p = "slug").
Proof. apply preSave_frame. Qed.

Lemma hook_changes_only_slug_witness :
  sameButSlug (newStore 41 10 coffeeShop)
    (setSlug "coffee-shop" (newStore 41 10 coffeeShop))
  ∧ (∀ p, p ∈ modifiedPaths (newStore 41 10 coffeeShop) →
          p ∈ modifiedPaths (setSlug "coffee-shop" (newStore 41 10 coffeeShop)))
  ∧ (∀ p, p ∈ modifiedPaths (setSlug "coffee-shop" (newStore 41 10 coffeeShop)) →
          p ∈ modifiedPaths (newStore 41 10 coffeeShop) ∨ p = "slug").
Proof.
  apply (hook_changes_only_slug Slugs.slugs oneStoreDb). reflexivity.
Defined.

(** ** What a create accepts, and what a save leaves alone *)

Lemma castCoordinates_numbers vs :
  Forall (λ v, ∃ q, v = InNum q) vs ↔
  ∃ cs, castCoordinates vs = Some cs ∧ forallb requiredValue cs = true.
Proof.
  unfold castCoordinates. induction vs as [|v vs IH].
  - split; [by exists [] | constructor].
  - rewrite Forall_cons, IH. split.
    + intros [[q ->] (cs & Hcs & Hreq)]. exists (Some q :: cs).
      simpl. rewrite Hcs. split; [reflexivity | exact Hreq].
    + intros (cs & Hcs & Hreq). simpl in Hcs.
      destruct v as [q| |]; simpl in Hcs; try done.
      * destruct (mapM castNumber vs) as [cs'|]; [|done].
        inversion Hcs; subst. split; [by eexists | by exists cs'].
      * destruct (mapM castNumber vs) as [cs'|]; [|done].
        inversion Hcs; subst. done.
Qed.

Lemma validate_acceptable id now i :
  validate (newStore id now i) = [] ↔ acceptable i.
Proof.
  split.
  - intros (Hname & Hcast & Hcoords & Haddr & Hauthor)%validate_nil.
    simpl in *. repeat split.
    + destruct (in_name i) as [n|]; [|done]. exists n. split; [done|].
      simpl in Hname. intros Hn. rewrite Hn in Hname. done.
    + destruct (in_address i) as [a|]; [|done]. exists a. split; [done|].
      simpl in Haddr. intros ->. done.
    + by destruct (in_author i).
    + intros vs Hvs. rewrite Hvs in *. simpl in *.
      apply castCoordinates_numbers.
      destruct (castCoordinates vs) as [cs|]; [|done]. by exists cs.
  - intros ((n & Hn & Htrim) & (a & Ha & Hne) & [u Hu] & Hcoords).
    unfold validate, newStore. simpl. rewrite Hn, Ha, Hu. simpl.
    rewrite (bool_decide_eq_false_2 (a = "") Hne).
    rewrite (bool_decide_eq_false_2 _ Htrim). simpl.
    destruct (in_coordinates i) as [vs|]; simpl; [|done].
    destruct (proj1 (castCoordinates_numbers vs) (Hcoords vs eq_refl))
      as (cs & -> & Hreq).
    simpl. by rewrite Hreq.
Qed.

(** X6. The validators pass the document of a create exactly when the
    input has a name that is not empty once trimmed, an address that is
    not empty, an author, and, if it has coordinates, numbers only.
    When they do not, and only then, the create fails with a validation
    error; it then lists the paths the validators refused, one at
    least, nothing is written, and the hook is not run. *)
Theorem createStore_validation_error (slugs : string → string) (db : DB)
    (id : ObjectId) (now : Date) (i : StoreInput) :
  (validate (newStore id now i) = [] ↔ acceptable i)
  ∧ (¬ acceptable i ↔
     ∃ e errors, createStore slugs db id now i
                 = (db, inl (ValidationError (e :: errors))))
  ∧ (∀ db' errors,
       createStore slugs db id now i = (db', inl (ValidationError errors)) →
       db' = db ∧ errors = validate (newStore id now i) ∧ errors ≠ []).
Proof.
  assert (Hbad : ∀ db' errors,
    createStore slugs db id now i = (db', inl (ValidationError errors)) →
    db' = db ∧ errors = validate (newStore id now i) ∧ errors ≠ []).
  { intros db' errors. unfold createStore, save.
    destruct (validate (newStore id now i)) as [|e es] eqn:Hv.
    - destruct (preSave slugs db (newStore id now i)) as [err|d'] eqn:Hpre.
      + intros [= <- Herr]. subst err.
        unfold preSave in Hpre. simpl in Hpre.
        apply validate_acceptable in Hv as ((n & Hn & _) & _).
        rewrite Hn in Hpre. simpl in Hpre.
        repeat (match type of Hpre with
                | context [if ?b then _ else _] => destruct b
                end); discriminate.
      + by destruct (isNew d').
    - by intros [= <- <-]. }
  split; [apply validate_acceptable|]. split; [|exact Hbad].
  split.
  - intros Hnot. unfold createStore.
    destruct (validate (newStore id now i)) as [|e errors] eqn:Hv.
    + by apply validate_acceptable in Hv.
    + exists e, errors. rewrite <- Hv. apply save_invalid. by rewrite Hv.
  - intros (e & errors & He) Hacc.
    destruct (Hbad _ _ He) as (_ & Hv & _).
    apply (validate_acceptable id now) in Hacc. congruence.
Qed.

Example coffeeShop_acceptable : acceptable coffeeShop.
Proof.
  repeat split; try by eexists.
  intros vs [= <-]. repeat constructor; by eexists.
Qed.

Section WriteFacts.
Variable slugs : string → string.

Lemma save_inv db d db' r :
  save slugs db d = (db', r) →
  (∃ e, r = inl e ∧ db' = db)
  ∨ (∃ d1, r = inr (saved d1)
       ∧ validate d = []
       ∧ preSave slugs db d = inr d1
       ∧ db' = if isNew d then insertOne (doc d1) db else updateOne (doc d1) db).
Proof.
  unfold save. destruct (validate d) eqn:Hv.
  - destruct (preSave slugs db d) as [e|d1] eqn:Hpre.
    + intros [= <- <-]. left. eauto.
    + destruct (preSave_frame slugs db d d1 Hpre) as [(_&_&_&_&_&_&_&_&Hnew&_) _].
      rewrite Hnew. intros [= <- <-]. right. eauto.
  - intros [= <- <-]. left. eauto.
Qed.

Lemma find_insertOne conditions s db :
  find conditions (insertOne s db) =
  find conditions db
  ++ (if conditions s then [populate db s] else []).
Proof.
  unfold find, insertOne. simpl. rewrite filter_app, fmap_app. f_equal.
  rewrite filter_cons, filter_nil.
  destruct (conditions s); by case_decide.
Qed.

End WriteFacts.

(** X7. After a create that went through, reading by the [_id] of the
    new store, an [_id] no stored record had, returns that store with
    the reviews that reference it; and any query returns what it
    returned before, followed by the new store when it meets the
    conditions. *)
Theorem created_store_is_found (slugs : string → string) (db db' : DB)
    (id : ObjectId) (now : Date) (i : StoreInput) (d : Document) :
  createStore slugs db id now i = (db', inr d) →
  (∀ s, s ∈ coll_stores db → _id s ≠ id) →
  _id (doc d) = id
  ∧ findOne (λ s, bool_decide (_id s = id)) db'
    = Some {| record := doc d;
              reviews := filter (λ r, store r = id) (coll_reviews db) |}
  ∧ ∀ conditions,
      find conditions db'
      = find conditions db
        ++ (if conditions (doc d) then [populate db (doc d)] else []).
Proof.
  intros Hc Hfresh. unfold createStore in Hc.
  apply save_inv in Hc as [(e & [=] & _)|(d1 & [= ->] & _ & Hpre & ->)].
  apply preSave_frame in Hpre as [(Hid & _) _]. simpl in *.
  split; [done|]. split; [|intros c; apply find_insertOne].
  unfold findOne. rewrite find_insertOne.
  assert (Hnone : find (λ s, bool_decide (_id s = id)) db = []).
  { unfold find. rewrite filter_none; [done|].
    intros s Hin Hs. apply bool_decide_eq_true in Hs. by apply (Hfresh s). }
  rewrite Hnone, Hid, bool_decide_eq_true_2 by done. simpl.
  unfold populate. by rewrite Hid.
Qed.

Lemma created_store_is_found_witness :
  _id (doc (saved (setSlug "coffee-shop" (newStore 41 10 coffeeShop)))) = 41
  ∧ findOne (λ s, bool_decide (_id s = 41))
      (insertOne (doc (setSlug "coffee-shop" (newStore 41 10 coffeeShop))) oneStoreDb)
    = Some {| record := doc (saved (setSlug "coffee-shop" (newStore 41 10 coffeeShop)));
              reviews := filter (λ r, store r = 41) (coll_reviews oneStoreDb) |}
  ∧ ∀ conditions,
      find conditions
        (insertOne (doc (setSlug "coffee-shop" (newStore 41 10 coffeeShop))) oneStoreDb)
      = find conditions oneStoreDb
        ++ (if conditions (doc (saved (setSlug "coffee-shop" (newStore 41 10 coffeeShop))))
            then [populate oneStoreDb
                    (doc (saved (setSlug "coffee-shop" (newStore 41 10 coffeeShop))))]
            else []).
Proof.
  apply (created_store_is_found Slugs.slugs oneStoreDb _ 41 10 coffeeShop).
  - reflexivity.
  - intros s ->%list_elem_of_singleton. discriminate.
Defined.

(** ** More on the tag report *)

Lemma sum_list_with_fmap {A B} (f : A → B) (g : B → nat) (l : list A) :
  sum_list_with g (f <$> l) = sum_list_with (g ∘ f) l.
Proof. induction l as [|x l IH]; simpl; [done|]. f_equal. exact IH. Qed.

Lemma groupTags_total l :
  sum_list_with snd (map_to_list (groupTags l)) = length l.
Proof.
  induction l as [|[s t] l IH]; [done|].
  unfold groupTags in *. simpl foldr. simpl length. rewrite <- IH.
  set (m := foldr _ _ l). simpl.
  destruct (m !! t) as [v|] eqn:Hm; simpl.
  - rewrite <- (insert_delete_eq m).
    rewrite (map_to_list_insert (delete t m)) by apply lookup_delete_eq.
    rewrite <- (insert_delete_id m t v Hm) at 2.
    rewrite (map_to_list_insert (delete t m)) by apply lookup_delete_eq.
    done.
  - by rewrite map_to_list_insert.
Qed.

Lemma occurrences_Permutation t db db' :
  coll_stores db ≡ₚ coll_stores db' → occurrences t db = occurrences t db'.
Proof. unfold occurrences. by intros ->. Qed.

(** X9. The counts of the tag report add up to the number of tags that
    the stores carry, every occurrence included: no tag is lost and none
    is counted twice. *)
Theorem tag_counts_add_up (db : DB) :
  sum_list_with TagCount.count (getTagsList db)
  = length (coll_stores db ≫= tags).
Proof.
  unfold getTagsList. rewrite merge_sort_Permutation, sum_list_with_fmap.
  rewrite <- unwindTags_snd, length_fmap.
  apply (groupTags_total (unwindTags (coll_stores db))).
Qed.

(** X10. The tag report does not depend on the order in which the
    stores are kept: two collections with the same stores give the same
    report, entry for entry. *)
Theorem tag_report_ignores_store_order (db db' : DB) :
  coll_stores db ≡ₚ coll_stores db' →
  getTagsList db = getTagsList db'.
Proof.
  intros Hperm. apply getTagsList_unique.
  - intros x. rewrite !elem_of_getTagsList.
    by rewrite (occurrences_Permutation _ db db' Hperm).
  - apply (NoDup_fmap_1 TagCount._id).
    unfold getTagsList. rewrite merge_sort_Permutation, <- list_fmap_compose.
    apply (NoDup_fst_map_to_list (groupTags (unwindTags (coll_stores db)))).
  - apply StronglySorted_merge_sort; apply _.
Qed.

Lemma tag_report_ignores_store_order_witness :
  getTagsList tagsDb
  = getTagsList {| coll_stores := [tagged 3 ["b"; "b"]; tagged 1 ["a"; "b"]; tagged 2 ["a"]];
                   coll_reviews := [] |}.
Proof.
  apply tag_report_ignores_store_order. simpl.
  etrans; [|apply Permutation_swap]. apply perm_skip. apply Permutation_swap.
Defined.

(** X11. The tag report is empty exactly when no store has a tag; a tag
    that some store carries always has an entry. *)
Theorem tag_report_empty_iff (db : DB) :
  (getTagsList db = [] ↔ ∀ s, s ∈ coll_stores db → tags s = [])
  ∧ (∀ s t, s ∈ coll_stores db → t ∈ tags s →
            ∃ n, 0 < n ∧ {| TagCount._id := t; TagCount.count := n |} ∈ getTagsList db).
Proof.
  assert (Hocc : ∀ s t, s ∈ coll_stores db → t ∈ tags s → 0 < occurrences t db).
  { intros s t Hs Ht. unfold occurrences.
    assert (Hin : t ∈ filter (λ u, u = t) (coll_stores db ≫= tags)).
    { apply list_elem_of_filter. split; [done|]. apply list_elem_of_bind. eauto. }
    destruct (filter _ _); [by apply not_elem_of_nil in Hin | simpl; lia]. }
  assert (Hentry : ∀ s t, s ∈ coll_stores db → t ∈ tags s →
            ∃ n, 0 < n ∧ {| TagCount._id := t; TagCount.count := n |} ∈ getTagsList db).
  { intros s t Hs Ht. exists (occurrences t db). split; [eauto|].
    apply elem_of_getTagsList. simpl. eauto. }
  split; [|done]. split.
  - intros Hnil s Hs. destruct (tags s) as [|t ts] eqn:Hts; [done|].
    destruct (Hentry s t Hs) as (n & _ & Hin); [rewrite Hts; left|].
    rewrite Hnil in Hin. by apply not_elem_of_nil in Hin.
  - intros Hnone. destruct (getTagsList db) as [|x l] eqn:Hl; [done|].
    assert (Hx : x ∈ getTagsList db) by (rewrite Hl; left).
    apply elem_of_getTagsList in Hx as [Hx Hpos]. rewrite Hx in Hpos.
    unfold occurrences in Hpos.
    assert (Hbind : coll_stores db ≫= tags = []).
    { clear -Hnone. induction (coll_stores db) as [|s l IH]; [done|].
      rewrite bind_cons, (Hnone s) by left. apply IH.
      intros s' Hs'. apply Hnone. by right. }
    rewrite Hbind in Hpos. simpl in Hpos. lia.
Qed.

(** ** More on the report of the top stores *)

(** X12. The report has as many entries as there are stores with a
    second review, up to ten: it is never short of a qualifying store
    while there is room. *)
Theorem report_length (db : DB) :
  length (getTopStores db)
  = length (filter (qualifies db) (coll_stores db)) `min` 10.
Proof.
  unfold getTopStores. rewrite length_take.
  rewrite <- (length_fmap TopStore._id), rankedStores_ids, length_fmap. lia.
Qed.

(** X13. The limit drops the lowest averages: a ranked store that is
    left out of the report has an average rating no higher than that of
    any entry of the report. *)
Theorem cut_off_keeps_the_best (db : DB) (e e' : TopStore.t) :
  e ∈ getTopStores db →
  e' ∈ rankedStores db →
  e' ∉ getTopStores db →
  descending e e'.
Proof.
  unfold getTopStores. intros He He' Hout.
  pose proof (rankedStores_descending db) as Hs.
  rewrite <- (take_drop 10 (rankedStores db)) in Hs, He'.
  apply elem_of_app in He' as [?|He']; [done|].
  by eapply StronglySorted_app_1_elem_of.
Qed.

Lemma cut_off_keeps_the_best_witness :
  descending (project (tagged 1 [], [review 2 1 4; review 3 1 5]))
             (project (tagged 11 [], [review 22 11 1; review 23 11 1])).
Proof.
  apply (cut_off_keeps_the_best elevenDb).
  - by apply (list_elem_of_lookup_2 _ 2).
  - by apply (list_elem_of_lookup_2 _ 10).
  - intros H. apply (list_elem_of_fmap_2 TopStore._id), list_elem_of_In in H.
    vm_compute in H. repeat (destruct H as [H|H]; [discriminate|]). done.
Defined.

(** X15. When the stores have pairwise distinct [_id]s, so have the
    entries of the report: no store is listed twice. *)
Theorem report_lists_a_store_once (db : DB) :
  NoDup (_id <$> coll_stores db) →
  NoDup (TopStore._id <$> getTopStores db).
Proof.
  intros Hnd. unfold getTopStores.
  apply (sublist_NoDup _ (TopStore._id <$> rankedStores db)).
  - rewrite rankedStores_ids.
    apply (sublist_NoDup _ (_id <$> coll_stores db)); [done|].
    apply fmap_sublist, sublist_filter.
  - apply fmap_sublist, sublist_take.
Qed.

Lemma report_lists_a_store_once_witness :
  NoDup (TopStore._id <$> getTopStores ratedDb).
Proof.
  apply report_lists_a_store_once. simpl.
  repeat (apply NoDup_cons; split; [by apply (bool_decide_unpack _)|]).
  apply NoDup_nil_2.
Defined.

(** * Properties of the authentication controller *)

Lemma findOneUser_Some conditions w u :
  findOneUser conditions w = Some u → u ∈ users w ∧ conditions u = true.
Proof.
  unfold findOneUser. intros H%head_Some_elem_of.
  apply list_elem_of_filter in H. tauto.
Qed.

Lemma findOneUser_None conditions w :
  findOneUser conditions w = None ↔ ∀ u, u ∈ users w → conditions u = false.
Proof.
  unfold findOneUser. rewrite head_None. split.
  - intros Hnil u Hin. destruct (conditions u) eqn:Hc; [|done].
    by destruct (filter_nil_not_elem_of _ _ u Hnil Hc).
  - intros Hall. apply filter_none. intros u Hin. by rewrite (Hall u Hin).
Qed.

Lemma findOneUser_exists conditions w u :
  u ∈ users w → conditions u = true → ∃ u0, findOneUser conditions w = Some u0.
Proof.
  intros Hin Hc. destruct (findOneUser conditions w) as [u0|] eqn:Hf; [by exists u0|].
  rewrite findOneUser_None in Hf. rewrite (Hf u Hin) in Hc. done.
Qed.

Lemma elem_of_saveUser u w v' :
  v' ∈ users (saveUser u w)
  ↔ ∃ v, v ∈ users w ∧ v' = if bool_decide (User._id v = User._id u) then u else v.
Proof.
  unfold saveUser. simpl. rewrite list_elem_of_fmap. split.
  - intros (v & -> & Hv). by exists v.
  - intros (v & Hv & ->). by exists v.
Qed.

Lemma saveUser_self u0 u w :
  u0 ∈ users w → User._id u = User._id u0 → u ∈ users (saveUser u w).
Proof.
  intros Hin Hid. apply elem_of_saveUser. exists u0. split; [done|].
  by rewrite bool_decide_eq_true_2.
Qed.

Lemma byToken_true token now u :
  byToken token now u = true
  ↔ User.resetPasswordToken u = Some token
    ∧ ∃ t, User.resetPasswordExpires u = Some t ∧ (now < t)%N.
Proof.
  unfold byToken. rewrite andb_true_iff, bool_decide_eq_true.
  destruct (User.resetPasswordExpires u) as [t|].
  - rewrite N.ltb_lt. split.
    + intros [? ?]. split; [done|]. by exists t.
    + intros [? (t' & [= <-] & ?)]. done.
  - split; [by intros [_ ?] | by intros [_ (t & ? & _)]].
Qed.

Lemma forgot_known token now host email w u0 :
  findOneUser (byEmail email) w = Some u0 →
  let u' := withReset (Some token) (Some (now + 3600000)%N) u0 in
  forgot token now host email w
  = (send {| user := u'; subject := "Password Reset";
             resetURL := "http://" +:+ host +:+ "/account/reset/" +:+ token;
             filename := "password-reset" |} (saveUser u' w),
     {| flashes := [("success", "You have been emailed a password reset link.")];
        outcome := Redirect "/login" |}).
Proof. intros H. unfold forgot. by rewrite H. Qed.

(** X16. A reset link is good for one hour, to the millisecond.  After
    [forgot] for the address of some user, with a token that no user
    held, [reset] with that token shows the form at any time before one
    hour has passed since the request, and answers that the reset is
    invalid or has expired from then on. *)
Theorem reset_link_lasts_an_hour (token host email : string) (now later : Timestamp)
    (w : World) (u : User.t) :
  u ∈ users w →
  User.email u = email →
  unusedToken token w →
  let w' := (forgot token now host email w).1 in
  ((later < now + 3600000)%N →
   reset token later w' = {| flashes := []; outcome := Render "reset" "Reset your Password" |})
  ∧ ((now + 3600000 <= later)%N → reset token later w' = invalidReset).
Proof.
  intros Hin Hemail Hunused.
  destruct (findOneUser_exists (byEmail email) w u Hin) as [u0 Hfind].
  { by apply bool_decide_eq_true. }
  rewrite (forgot_known _ _ _ _ _ _ Hfind). cbv zeta. simpl fst.
  destruct (findOneUser_Some _ _ _ Hfind) as [Hin0 _].
  set (u' := withReset (Some token) (Some (now + 3600000)%N) u0).
  set (w' := send _ (saveUser u' w)).
  assert (Hu' : u' ∈ users w') by by apply (saveUser_self u0).
  split.
  - intros Hlt. unfold reset.
    destruct (findOneUser_exists (byToken token later) w' u' Hu') as [v ->]; [|done].
    apply byToken_true. split; [done|]. by exists (now + 3600000)%N.
  - intros Hle. unfold reset.
    assert (Hnone : findOneUser (byToken token later) w' = None); [|by rewrite Hnone].
    apply findOneUser_None. intros v' Hv'.
    apply (elem_of_saveUser u' w) in Hv' as (v & Hv & ->).
    destruct (byToken token later _) eqn:Hb; [|done].
    apply byToken_true in Hb as [Htok (t & Ht & Hlt)].
    case_bool_decide.
    + simpl in Ht. injection Ht as <-. lia.
    + by destruct (Hunused v Hv).
Qed.

Lemma reset_link_lasts_an_hour_witness :
  reset "cafe" 3600999%N (forgot "cafe" 1000%N "localhost" "ada@example.com" twoUsers).1
  = {| flashes := []; outcome := Render "reset" "Reset your Password" |}
  ∧ reset "cafe" 3601000%N (forgot "cafe" 1000%N "localhost" "ada@example.com" twoUsers).1
    = invalidReset.
Proof.
  split.
  - apply (reset_link_lasts_an_hour "cafe" "localhost" "ada@example.com" 1000%N 3600999%N
             twoUsers ada); [by left | done | | done].
    intros u [->|[->|[]%elem_of_nil]%elem_of_cons]%elem_of_cons; discriminate.
  - apply (reset_link_lasts_an_hour "cafe" "localhost" "ada@example.com" 1000%N 3601000%N
             twoUsers ada); [by left | done | | done].
    intros u [->|[->|[]%elem_of_nil]%elem_of_cons]%elem_of_cons; discriminate.
Defined.

(** Saving a user keeps, for every user, the fields that the saved
    record shares with the stored one. *)
Lemma saveUser_keeps {B} (f : User.t → B) u0 u w :
  NoDup (User._id <$> users w) →
  u0 ∈ users w →
  User._id u = User._id u0 →
  f u = f u0 →
  f <$> users (saveUser u w) = f <$> users w.
Proof.
  intros Hnd Hin Hid Hf. unfold saveUser. simpl. rewrite <- list_fmap_compose.
  apply list_fmap_ext. intros k v Hk. simpl.
  case_bool_decide as Hv; [|done].
  rewrite Hf. f_equal. symmetry.
  apply (NoDup_fmap_inj User._id (users w)); [done| |done|congruence].
  by eapply list_elem_of_lookup_2.
Qed.

(** X17. [forgot] never changes an email, a credential or the session,
    and always sends the caller to the login page.  For an address that
    no user has it changes nothing at all and sends no mail; for an
    address that some user has it sends one mail, to a user with that
    address, whose link is the host, [/account/reset/] and the token
    now stored for that user. *)
Theorem forgot_changes_only_the_reset (token host email : string)
    (now : Timestamp) (w : World) :
  NoDup (User._id <$> users w) →
  let r := forgot token now host email w in
  User.email <$> users r.1 = User.email <$> users w
  ∧ User.credential <$> users r.1 = User.credential <$> users w
  ∧ User._id <$> users r.1 = User._id <$> users w
  ∧ sessionUser r.1 = sessionUser w
  ∧ outcome r.2 = Redirect "/login"
  ∧ ((∀ u, u ∈ users w → User.email u ≠ email) → r.1 = w)
  ∧ (∀ u, u ∈ users w → User.email u = email →
       ∃ m, outbox r.1 = outbox w ++ [m]
            ∧ User.email (user m) = email
            ∧ user m ∈ users r.1
            ∧ User.resetPasswordToken (user m) = Some token
            ∧ resetURL m = "http://" +:+ host +:+ "/account/reset/" +:+ token).
Proof.
  intros Hnd. cbv zeta.
  destruct (findOneUser (byEmail email) w) as [u0|] eqn:Hfind.
  - rewrite (forgot_known _ _ _ _ _ _ Hfind). cbv zeta.
    destruct (findOneUser_Some _ _ _ Hfind) as [Hin0 Hmail%bool_decide_eq_true].
    set (u' := withReset (Some token) (Some (now + 3600000)%N) u0).
    split; [by apply (saveUser_keeps User.email u0)|].
    split; [by apply (saveUser_keeps User.credential u0)|].
    split; [by apply (saveUser_keeps User._id u0)|].
    split; [done|]. split; [done|]. split.
    + intros Hnone. destruct (Hnone u0 Hin0 Hmail).
    + intros u _ _. eexists. split; [done|]. simpl.
      split; [done|]. split; [by apply (saveUser_self u0)|]. done.
  - unfold forgot. rewrite Hfind. simpl. repeat split; try done.
    intros u Hin Hu. rewrite findOneUser_None in Hfind.
    specialize (Hfind u Hin). by apply bool_decide_eq_false in Hfind.
Qed.

Lemma forgot_changes_only_the_reset_witness :
  User.email <$> users (forgot "cafe" 1000%N "localhost" "ada@example.com" twoUsers).1
  = ["ada@example.com"; "bob@example.com"]
  ∧ User.credential <$> users (forgot "cafe" 1000%N "localhost" "ada@example.com" twoUsers).1
    = ["c0"; "c1"]
  ∧ resetURL <$> outbox (forgot "cafe" 1000%N "localhost" "ada@example.com" twoUsers).1
    = ["http://localhost/account/reset/cafe"].
Proof.
  destruct (forgot_changes_only_the_reset "cafe" "localhost" "ada@example.com" 1000%N
              twoUsers) as (He & Hc & _).
  { simpl. repeat (apply NoDup_cons; split; [by apply (bool_decide_unpack _)|]).
    apply NoDup_nil_2. }
  split; [exact He|]. split; [exact Hc|]. reflexivity.
Defined.

Section UpdateFacts.
Variable hash : string → string.

Lemma update_valid token now password w u :
  findOneUser (byToken token now) w = Some u →
  let updatedUser := withReset None None (withCredential (hash password) u) in
  update hash token now password w
  = (login updatedUser (saveUser updatedUser w),
     {| flashes := [("success", "👯‍♂️Nice! Your password has been reset!!!!")];
        outcome := Redirect "/" |}).
Proof. intros H. unfold update. by rewrite H. Qed.

Lemma update_invalid token now password w :
  (∀ v, v ∈ users w → byToken token now v = false) →
  update hash token now password w = (w, invalidReset).
Proof. intros H%findOneUser_None. unfold update. by rewrite H. Qed.

End UpdateFacts.

(** X18. A reset token works once.  After [update] with a token that is
    valid and that only one user holds, that user has the credential of
    the new password and no token, the session is theirs, and the same
    token is refused from then on, by [reset] and by [update], at any
    time and with any password. *)
Theorem token_works_once (hash : string → string) (token password : string)
    (now : Timestamp) (w : World) (u : User.t) :
  findOneUser (byToken token now) w = Some u →
  (∀ v, v ∈ users w → User.resetPasswordToken v = Some token →
        User._id v = User._id u) →
  let r := update hash token now password w in
  outcome r.2 = Redirect "/"
  ∧ sessionUser r.1 = Some (User._id u)
  ∧ (∀ v, v ∈ users r.1 → User._id v = User._id u →
          User.credential v = hash password
          ∧ User.resetPasswordToken v = None
          ∧ User.resetPasswordExpires v = None)
  ∧ (∃ v, v ∈ users r.1 ∧ User._id v = User._id u)
  ∧ (∀ later, reset token later r.1 = invalidReset)
  ∧ (∀ later password', update hash token later password' r.1 = (r.1, invalidReset)).
Proof.
  intros Hfind Honly. cbv zeta. rewrite (update_valid _ _ _ _ _ _ Hfind).
  cbv zeta. cbn [fst snd].
  set (u' := withReset None None (withCredential (hash password) u)).
  destruct (findOneUser_Some _ _ _ Hfind) as [Hin _].
  assert (Hnone : ∀ later v, v ∈ users (login u' (saveUser u' w)) →
                    byToken token later v = false).
  { intros later v' (v & Hv & ->)%(elem_of_saveUser u' w).
    destruct (byToken token later _) eqn:Hb; [|done].
    apply byToken_true in Hb as [Htok _].
    case_bool_decide as Hid; [done|]. destruct Hid. by apply Honly. }
  split; [done|]. split; [done|]. split; [|split; [|split]].
  - intros v' (v & Hv & ->)%(elem_of_saveUser u' w) Hid.
    case_bool_decide as Hv'; [done|]. by destruct Hv'.
  - exists u'. split; [by apply (saveUser_self u)|done].
  - intros later. unfold reset.
    by rewrite (proj2 (findOneUser_None _ _) (Hnone later)).
  - intros later password'. apply update_invalid, Hnone.
Qed.

Lemma token_works_once_witness :
  sessionUser (update (λ p, "hash:" +:+ p) "beef" 100%N "s3cret" twoUsers).1 = Some 8
  ∧ User.credential <$> users (update (λ p, "hash:" +:+ p) "beef" 100%N "s3cret" twoUsers).1
    = ["c0"; "hash:s3cret"]
  ∧ reset "beef" 101%N (update (λ p, "hash:" +:+ p) "beef" 100%N "s3cret" twoUsers).1
    = invalidReset.
Proof.
  destruct (token_works_once (λ p, "hash:" +:+ p) "beef" "s3cret" 100%N twoUsers bob)
    as (_ & Hs & _ & _ & Hreset & _).
  - reflexivity.
  - intros v [->|[->|[]%elem_of_nil]%elem_of_cons]%elem_of_cons; [discriminate|done].
  - split; [exact Hs|]. split; [reflexivity|]. apply Hreset.
Defined.

(** X19. [update] with a token that no user holds, or whose time has
    come (the expiry is not later than now), or that was never given an
    expiry, changes nothing: no credential, no token, no session; it
    answers that the reset is invalid or has expired. *)
Theorem stale_token_changes_nothing (hash : string → string)
    (token password : string) (now : Timestamp) (w : World) :
  (∀ v, v ∈ users w → User.resetPasswordToken v = Some token →
        match User.resetPasswordExpires v with
        | Some t => (t <= now)%N
        | None => True
        end) →
  update hash token now password w = (w, invalidReset)
  ∧ reset token now w = invalidReset.
Proof.
  intros Hstale.
  assert (Hnone : ∀ v, v ∈ users w → byToken token now v = false).
  { intros v Hv. destruct (byToken token now v) eqn:Hb; [|done].
    apply byToken_true in Hb as [Htok (t & Ht & Hlt)].
    specialize (Hstale v Hv Htok). rewrite Ht in Hstale. lia. }
  split; [by apply update_invalid|].
  unfold reset. by rewrite (proj2 (findOneUser_None _ _) Hnone).
Qed.

Lemma stale_token_changes_nothing_witness :
  update (λ p, "hash:" +:+ p) "beef" 500%N "s3cret" twoUsers = (twoUsers, invalidReset)
  ∧ reset "beef" 500%N twoUsers = invalidReset.
Proof.
  apply (stale_token_changes_nothing (λ p, "hash:" +:+ p) "beef" "s3cret" 500%N twoUsers).
  intros v [->|[->|[]%elem_of_nil]%elem_of_cons]%elem_of_cons; [discriminate|].
  intros _. simpl. lia.
Defined.

Lemma findOneUser_unique conditions w u :
  u ∈ users w →
  conditions u = true →
  (∀ v, v ∈ users w → conditions v = true → v = u) →
  findOneUser conditions w = Some u.
Proof.
  intros Hin Hc Huniq.
  destruct (findOneUser_exists conditions w u Hin Hc) as [u0 Hf].
  destruct (findOneUser_Some _ _ _ Hf) as [Hin0 Hc0].
  by rewrite Hf, (Huniq u0 Hin0 Hc0).
Qed.

(** X20. The whole reset, end to end.  When the address identifies one
    user and the token is fresh, [forgot] followed, within the hour, by
    [update] with that token gives that user the credential of the new
    password, clears the token, opens the session for that user, and
    leaves every other user exactly as before. *)
Theorem forgotten_password_is_replaced (hash : string → string)
    (token host email password : string) (now later : Timestamp)
    (w : World) (u : User.t) :
  NoDup (User._id <$> users w) →
  u ∈ users w →
  User.email u = email →
  (∀ v, v ∈ users w → User.email v = email → v = u) →
  unusedToken token w →
  (later < now + 3600000)%N →
  let r := update hash token later password (forgot token now host email w).1 in
  outcome r.2 = Redirect "/"
  ∧ sessionUser r.1 = Some (User._id u)
  ∧ users r.1
    = (λ v, if bool_decide (v = u)
            then withReset None None (withCredential (hash password) u)
            else v) <$> users w.
Proof.
  intros Hnd Hin Hemail Honly Hunused Hlt. cbv zeta.
  assert (Hfind : findOneUser (byEmail email) w = Some u).
  { apply findOneUser_unique; [done|by apply bool_decide_eq_true|].
    intros v Hv Hc%bool_decide_eq_true. by apply Honly. }
  rewrite (forgot_known _ _ _ _ _ _ Hfind). cbv zeta. cbn [fst].
  set (u' := withReset (Some token) (Some (now + 3600000)%N) u).
  set (w1 := send _ (saveUser u' w)).
  assert (Hfind' : findOneUser (byToken token later) w1 = Some u').
  { apply findOneUser_unique.
    - by apply (saveUser_self u).
    - apply byToken_true. split; [done|]. by exists (now + 3600000)%N.
    - intros v' (v & Hv & ->)%(elem_of_saveUser u' w) Hb.
      case_bool_decide; [done|].
      apply byToken_true in Hb as [Htok _]. by destruct (Hunused v Hv). }
  rewrite (update_valid _ _ _ _ _ _ Hfind'). cbv zeta. cbn [fst snd].
  split; [done|]. split; [done|].
  simpl. rewrite <- list_fmap_compose. apply list_fmap_ext.
  intros k v Hk. simpl.
  assert (Hv : v ∈ users w) by by eapply list_elem_of_lookup_2.
  destruct (decide (v = u)) as [->|Hne].
  - rewrite (bool_decide_eq_true_2 (u = u) eq_refl).
    rewrite (bool_decide_eq_true_2 (User._id u = User._id u) eq_refl). simpl.
    by rewrite (bool_decide_eq_true_2 (User._id u = User._id u) eq_refl).
  - assert (Hid : User._id v ≠ User._id u).
    { intros Hid. apply Hne. by apply (NoDup_fmap_inj User._id (users w)). }
    rewrite (bool_decide_eq_false_2 (v = u) Hne).
    rewrite (bool_decide_eq_false_2 (User._id v = User._id u) Hid).
    by rewrite (bool_decide_eq_false_2 (User._id v = User._id u) Hid).
Qed.

Lemma forgotten_password_is_replaced_witness :
  sessionUser
    (update (λ p, "hash:" +:+ p) "cafe" 2000%N "s3cret"
       (forgot "cafe" 1000%N "localhost" "ada@example.com" twoUsers).1).1
  = Some 7
  ∧ User.credential <$> users
      (update (λ p, "hash:" +:+ p) "cafe" 2000%N "s3cret"
         (forgot "cafe" 1000%N "localhost" "ada@example.com" twoUsers).1).1
    = ["hash:s3cret"; "c1"].
Proof.
  destruct (forgotten_password_is_replaced (λ p, "hash:" +:+ p) "cafe" "localhost"
              "ada@example.com" "s3cret" 1000%N 2000%N twoUsers ada)
    as (_ & Hs & Hu).
  - simpl. repeat (apply NoDup_cons; split; [by apply (bool_decide_unpack _)|]).
    apply NoDup_nil_2.
  - left.
  - reflexivity.
  - intros v [->|[->|[]%elem_of_nil]%elem_of_cons]%elem_of_cons; [done|discriminate].
  - intros v [->|[->|[]%elem_of_nil]%elem_of_cons]%elem_of_cons; discriminate.
  - reflexivity.
  - split; [exact Hs|]. by rewrite Hu.
Defined.
